(** * git-memo: a shallow embedding of [src/commands.rs] and [src/main.rs]

    The memo tool stores each category as a chain of commits under
    [refs/memo/<category>].  The library API ([src/commands.rs], re-exported
    as [git_memo::*]) and the binary's own private copies of the commands
    ([src/main.rs]) both call into libgit2 through the [git2] crate; the
    parts of libgit2 they rely on (reference lookup and name validation,
    [git_commit_create] with an [update_ref], [git_commit_amend],
    [git_reference_rename], the revision walk, signatures) are modelled in
    module [Git] at the level of detail the commands can observe. *)

From Stdlib Require Import String Ascii List Bool Arith Lia ZArith.
From Stdlib Require Import Sorting.Sorted.
Import ListNotations.

Local Open Scope list_scope.
Local Open Scope string_scope.

Module Git.

(** ** Small string helpers *)

Definition is_space (c : ascii) : bool :=
  match nat_of_ascii c with
  | 32 | 9 | 10 | 11 | 12 | 13 => true
  | _ => false
  end.

Fixpoint trim_start (s : string) : string :=
  match s with
  | EmptyString => EmptyString
  | String c r => if is_space c then trim_start r else s
  end.

Definition rev_string (s : string) : string :=
  string_of_list_ascii (rev (list_ascii_of_string s)).

(** libgit2's [extract_trimmed]: strip leading and trailing ASCII
    whitespace ([git__isspace]). *)
Definition trim (s : string) : string :=
  rev_string (trim_start (rev_string (trim_start s))).

Definition is_empty (s : string) : bool :=
  match s with EmptyString => true | _ => false end.

Fixpoint ends_with_char (c : ascii) (s : string) : bool :=
  match s with
  | EmptyString => false
  | String d EmptyString => Ascii.eqb c d
  | String _ r => ends_with_char c r
  end.

Fixpoint contains_char (c : ascii) (s : string) : bool :=
  match s with
  | EmptyString => false
  | String d r => Ascii.eqb c d || contains_char c r
  end.

Definition has_nul (s : string) : bool := contains_char "000" s.

(** ** UTF-8 ([str], [String]) *)

Definition in_range (lo hi : nat) (c : ascii) : bool :=
  Nat.leb lo (nat_of_ascii c) && Nat.leb (nat_of_ascii c) hi.

Definition is_cont (c : ascii) : bool := in_range 128 191 c.

(** The check of [str::from_utf8]: well-formed UTF-8, without overlong
    forms, surrogates or code points above U+10FFFF. *)
Fixpoint utf8_valid (l : list ascii) : bool :=
  match l with
  | [] => true
  | c :: r =>
      if in_range 0 127 c then utf8_valid r else
      match r with
      | [] => false
      | c1 :: r1 =>
          if in_range 194 223 c then is_cont c1 && utf8_valid r1 else
          match r1 with
          | [] => false
          | c2 :: r2 =>
              if Nat.eqb (nat_of_ascii c) 224 then
                in_range 160 191 c1 && is_cont c2 && utf8_valid r2
              else if in_range 225 236 c || in_range 238 239 c then
                is_cont c1 && is_cont c2 && utf8_valid r2
              else if Nat.eqb (nat_of_ascii c) 237 then
                in_range 128 159 c1 && is_cont c2 && utf8_valid r2
              else
                match r2 with
                | [] => false
                | c3 :: r3 =>
                    if Nat.eqb (nat_of_ascii c) 240 then
                      in_range 144 191 c1 && is_cont c2 && is_cont c3 && utf8_valid r3
                    else if in_range 241 243 c then
                      is_cont c1 && is_cont c2 && is_cont c3 && utf8_valid r3
                    else if Nat.eqb (nat_of_ascii c) 244 then
                      in_range 128 143 c1 && is_cont c2 && is_cont c3 && utf8_valid r3
                    else false
                end
          end
      end
  end.

(** The characters of a UTF-8 string, each as its bytes: a continuation
    byte belongs to the character before it. *)
Fixpoint utf8_chars (l : list ascii) : list (list ascii) :=
  match l with
  | [] => []
  | c :: r =>
      match utf8_chars r with
      | ((d :: _) as g) :: gs => if is_cont d then (c :: g) :: gs else [c] :: g :: gs
      | gs => [c] :: gs
      end
  end.

(** The characters with Unicode's White_Space property, UTF-8 encoded. *)
Definition unicode_spaces : list (list nat) :=
  [[9]; [10]; [11]; [12]; [13]; [32]; [194; 133]; [194; 160]; [225; 154; 128];
   [226; 128; 128]; [226; 128; 129]; [226; 128; 130]; [226; 128; 131];
   [226; 128; 132]; [226; 128; 133]; [226; 128; 134]; [226; 128; 135];
   [226; 128; 136]; [226; 128; 137]; [226; 128; 138]; [226; 128; 168];
   [226; 128; 169]; [226; 128; 175]; [226; 129; 159]; [227; 128; 128]].

(** [char::is_whitespace] *)
Definition is_whitespace (ch : list ascii) : bool :=
  existsb (fun u => if list_eq_dec Nat.eq_dec u (map nat_of_ascii ch) then true else false)
          unicode_spaces.

Fixpoint drop_whitespace (l : list (list ascii)) : list (list ascii) :=
  match l with
  | ch :: r => if is_whitespace ch then drop_whitespace r else l
  | [] => []
  end.

(** [str::trim]: strip leading and trailing characters that are
    [char::is_whitespace]. *)
Definition str_trim (s : string) : string :=
  string_of_list_ascii
    (concat (rev (drop_whitespace (rev (drop_whitespace (utf8_chars (list_ascii_of_string s))))))).

(** [while s.ends_with('\n') { s.pop(); }] *)
Definition strip_trailing_newlines (s : string) : string :=
  let fix drop (l : list ascii) :=
    match l with
    | c :: r => if Ascii.eqb c "010"%char then drop r else l
    | [] => []
    end in
  string_of_list_ascii (rev (drop (rev (list_ascii_of_string s)))).

(** [str::strip_prefix] *)
Fixpoint strip_prefix (p s : string) : option string :=
  match p, s with
  | EmptyString, _ => Some s
  | String a p', String b s' => if Ascii.eqb a b then strip_prefix p' s' else None
  | String _ _, EmptyString => None
  end.

(** Decimal rendering of a natural number. *)
Fixpoint digits_of (fuel n : nat) (acc : string) : string :=
  match fuel with
  | O => acc
  | S f =>
      let acc' := String (ascii_of_nat (48 + n mod 10)) acc in
      if Nat.ltb n 10 then acc' else digits_of f (n / 10) acc'
  end.

Definition string_of_nat (n : nat) : string := digits_of (S n) n EmptyString.

(** ** Errors ([git2::Error], [git2::ErrorCode]) *)

Inductive ErrorCode :=
| GenericError | NotFound | Exists | InvalidSpec
| NotFastForward | Locked | Modified | Directory.

Record git_error := { code : ErrorCode; message : string }.

(** [git2::Error::from_str] builds an error of class/code "generic". *)
Definition from_str (m : string) : git_error :=
  {| code := GenericError; message := m |}.

Inductive result (A : Type) :=
| Ok (a : A)
| Err (e : git_error).
Arguments Ok {A} a.
Arguments Err {A} e.

(** [impl From<NulError> for git2::Error]: a string handed to libgit2 that
    holds a NUL byte cannot become a C string. *)
Definition nul_error : git_error :=
  from_str "data contained a nul byte that could not be represented as a string".

(** How a call of a Rust function ends: it returns its [Result], or it
    panics. *)
Inductive returned :=
| Returned (r : result unit)
| Panicked (msg : string).
#[warning="-uniform-inheritance"]
Coercion Returned : result >-> returned.

(** ** Objects and object ids *)

Definition oid := string.

Record signature := {
  sig_name : string;
  sig_email : string;
  sig_time : nat;        (* seconds since the epoch *)
  sig_offset : nat       (* timezone offset, minutes east of UTC *)
}.

Record commit := {
  c_tree : oid;
  c_parents : list oid;
  c_author : signature;
  c_committer : signature;
  c_message : string
}.

Inductive object :=
| OTree (entries : string)
| OCommit (c : commit).

Definition pad2 (n : nat) : string :=
  if Nat.ltb n 10 then "0" ++ string_of_nat n else string_of_nat n.

Definition sig_line (s : signature) : string :=
  sig_name s ++ " <" ++ sig_email s ++ "> " ++ string_of_nat (sig_time s)
  ++ " +" ++ pad2 (sig_offset s / 60) ++ pad2 (sig_offset s mod 60).

Fixpoint parent_lines (ps : list oid) : string :=
  match ps with
  | [] => ""
  | p :: ps' => "parent " ++ p ++ String "010" (parent_lines ps')
  end.

(** The bytes git hashes for a commit object. *)
Definition serialize_commit (c : commit) : string :=
  "tree " ++ c_tree c ++ String "010" (
  parent_lines (c_parents c) ++
  "author " ++ sig_line (c_author c) ++ String "010" (
  "committer " ++ sig_line (c_committer c) ++ String "010" (String "010" (
  c_message c)))).

(** Idealised content hash: an object's id is the byte string git hashes
    (type, size and body) itself, so two objects share an id exactly when
    their contents are equal -- the collision freedom the data model
    assumes of the real SHA-1. *)
Definition hash_object (kind body : string) : oid :=
  kind ++ " " ++ string_of_nat (String.length body) ++ ":" ++ body.

Definition commit_id (c : commit) : oid := hash_object "commit" (serialize_commit c).

Definition object_id (o : object) : oid :=
  match o with
  | OTree e => hash_object "tree" e
  | OCommit c => commit_id c
  end.

Definition empty_tree_id : oid := object_id (OTree "").

(** ** Reference names ([git_reference_name_is_valid], with
    [GIT_REFERENCE_FORMAT_ALLOW_ONELEVEL]) *)

(** [is_valid_ref_char]; ['*'] is refused too since no glob is allowed. *)
Definition is_valid_ref_char (c : ascii) : bool :=
  Nat.ltb 32 (nat_of_ascii c) &&
  negb (contains_char c "~^:\?[*").

Fixpoint seg_chars_ok (prev : ascii) (l : list ascii) : bool :=
  match l with
  | [] => true
  | c :: r =>
      is_valid_ref_char c
      && negb (Ascii.eqb prev "." && Ascii.eqb c ".")
      && negb (Ascii.eqb prev "@" && Ascii.eqb c "{")
      && seg_chars_ok c r
  end.

Definition ends_with_lock (seg : string) : bool :=
  match strip_prefix (rev_string ".lock") (rev_string seg) with
  | Some _ => true
  | None => false
  end.

(** [ensure_segment_validity], for a non-empty segment. *)
Definition segment_valid (seg : string) : bool :=
  match seg with
  | EmptyString => false
  | String c _ =>
      negb (Ascii.eqb c ".")
      && seg_chars_ok "000" (list_ascii_of_string seg)
      && negb (ends_with_lock seg)
  end.

(** Split at every ['/']. *)
Fixpoint split_slash (s : string) : list string :=
  match s with
  | EmptyString => [EmptyString]
  | String c r =>
      let l := split_slash r in
      if Ascii.eqb c "/" then EmptyString :: l
      else match l with
           | h :: t => String c h :: t
           | [] => [String c EmptyString]
           end
  end.

Definition is_all_caps_and_underscore (s : string) : bool :=
  negb (is_empty s) &&
  forallb (fun c => (Nat.leb 65 (nat_of_ascii c) && Nat.leb (nat_of_ascii c) 90)
                    || Ascii.eqb c "_") (list_ascii_of_string s).

Definition refname_segments_ok (segs : list string) : bool :=
  forallb segment_valid segs
  && negb (ends_with_char "." (last segs EmptyString))
  && match segs with
     | [s] => is_all_caps_and_underscore s
     | s :: _ :: _ => negb (is_all_caps_and_underscore s)
     | [] => false
     end.

Definition is_valid_name (name : string) : bool :=
  refname_segments_ok (split_slash name).

Fixpoint nul_position (s : string) : nat :=
  match s with
  | EmptyString => 0
  | String c r => if Ascii.eqb c "000" then 0 else S (nul_position r)
  end.

Fixpoint render_bytes (l : list ascii) : string :=
  match l with
  | [] => ""
  | [c] => string_of_nat (nat_of_ascii c)
  | c :: r => string_of_nat (nat_of_ascii c) ++ ", " ++ render_bytes r
  end.

(** The panic message of [CString::new(s).unwrap()] on a string holding a
    NUL byte: the [Debug] form of [NulError(position, bytes)]. *)
Definition unwrap_nul_panic (s : string) : string :=
  "called `Result::unwrap()` on an `Err` value: NulError("
  ++ string_of_nat (nul_position s) ++ ", [" ++ render_bytes (list_ascii_of_string s) ++ "])".

(** ** Repository state *)

Record repo := {
  refs : list (string * oid);      (* reference name -> target *)
  odb : list (oid * object);       (* object database *)
  head_tree : option oid;          (* tree of HEAD's commit; None when HEAD is unborn *)
  cfg_name : option string;        (* user.name *)
  cfg_email : option string;       (* user.email *)
  clock : nat;                     (* wall clock read by [Signature::now] *)
  tz : nat
}.

Fixpoint assoc_find {A} (k : string) (l : list (string * A)) : option A :=
  match l with
  | [] => None
  | (k', v) :: r => if String.eqb k k' then Some v else assoc_find k r
  end.

Fixpoint assoc_set {A} (k : string) (v : A) (l : list (string * A)) : list (string * A) :=
  match l with
  | [] => [(k, v)]
  | (k', v') :: r => if String.eqb k k' then (k, v) :: r else (k', v') :: assoc_set k v r
  end.

Definition assoc_remove {A} (k : string) (l : list (string * A)) : list (string * A) :=
  filter (fun kv => negb (String.eqb k (fst kv))) l.

Definition with_refs (s : repo) (r : list (string * oid)) : repo :=
  {| refs := r; odb := odb s; head_tree := head_tree s; cfg_name := cfg_name s;
     cfg_email := cfg_email s; clock := clock s; tz := tz s |}.

Definition with_odb (s : repo) (d : list (oid * object)) : repo :=
  {| refs := refs s; odb := d; head_tree := head_tree s; cfg_name := cfg_name s;
     cfg_email := cfg_email s; clock := clock s; tz := tz s |}.

Definition ref_set (s : repo) (name : string) (o : oid) : repo :=
  with_refs s (assoc_set name o (refs s)).

Definition invalid_spec (name : string) : git_error :=
  {| code := InvalidSpec;
     message := "the given reference name '" ++ name ++ "' is not valid" |}.

Definition ref_not_found (name : string) : git_error :=
  {| code := NotFound; message := "reference '" ++ name ++ "' not found" |}.

(** [Repository::refname_to_id] ([CString::new(name)?], then
    [git_reference_name_to_id]) *)
Definition refname_to_id (s : repo) (name : string) : result oid :=
  if has_nul name then Err nul_error else
  if negb (is_valid_name name) then Err (invalid_spec name) else
  match assoc_find name (refs s) with
  | Some o => Ok o
  | None => Err (ref_not_found name)
  end.

(** [Repository::find_reference]; a direct reference is its name and target. *)
Definition find_reference (s : repo) (name : string) : result (string * oid) :=
  match refname_to_id s name with
  | Ok o => Ok (name, o)
  | Err e => Err e
  end.

(** [Repository::find_commit] *)
Definition find_commit (s : repo) (o : oid) : result commit :=
  match assoc_find o (odb s) with
  | Some (OCommit c) => Ok c
  | _ => Err {| code := NotFound;
                message := "object not found - no match for id (" ++ o ++ ")" |}
  end.

(** [git_odb_write]: the object is stored under its id.  The entry is put
    in front, so a lookup sees the latest write; git keeps one copy per id
    instead, and since equal ids mean equal stored bytes, readers cannot
    tell the two apart. *)
Definition odb_write (s : repo) (ob : object) : repo * oid :=
  let id := object_id ob in
  (with_odb s ((id, ob) :: odb s), id).

(** [Signature::now] ([CString::new] of both parts, then
    [git_signature_now]): trims both parts, refuses angle brackets and an
    empty name, stamps the current time. *)
Definition signature_now (s : repo) (name email : string) : result signature :=
  if has_nul name || has_nul email then Err nul_error
  else if contains_char "<" name || contains_char ">" name
     || contains_char "<" email || contains_char ">" email
  then Err (from_str "failed to parse signature - Neither `name` nor `email` should contain angle brackets chars.")
  else if is_empty (trim name)
  then Err (from_str "failed to parse signature - Signature cannot have an empty name")
  else Ok {| sig_name := trim name; sig_email := trim email;
             sig_time := clock s; sig_offset := tz s |}.

(** [Repository::signature] ([git_signature_default]): both [user.name]
    and [user.email] are read from the configuration. *)
Definition repo_signature (s : repo) : result signature :=
  match cfg_name s, cfg_email s with
  | Some n, Some e => signature_now s n e
  | None, _ => Err {| code := NotFound; message := "config value 'user.name' was not found" |}
  | _, None => Err {| code := NotFound; message := "config value 'user.email' was not found" |}
  end.

(** ** Writing references and commits *)

(** [b] lies in the folder [a]. *)
Definition in_folder (a b : string) : bool :=
  match strip_prefix (a ++ "/") b with Some _ => true | None => false end.

(** What [loose_lock] meets, besides another process's lock, when it
    locks the loose file of reference [name] (references are kept as loose
    files): the file of a reference where one of the path's folders should
    be ([git_futils_rmdir_r] fails first, its parent not being a
    directory; libgit2 names the full path of the file in the git
    directory, the model the reference name), or a folder of references at
    that path ([git_filebuf_open] fails with [GIT_EDIRECTORY]). *)
Definition loose_lock (s : repo) (name : string) : option git_error :=
  if existsb (fun kv => in_folder (fst kv) name) (refs s) then
    Some (from_str ("could not remove directory '" ++ name ++ "': parent is not directory"))
  else if existsb (fun kv => in_folder name (fst kv)) (refs s) then
    Some {| code := Directory;
            message := "cannot lock ref '" ++ name ++ "', there are refs beneath that folder" |}
  else None.

Definition tip_not_first_parent : git_error :=
  {| code := Modified;
     message := "failed to create commit: current tip is not the first parent" |}.

(** [Repository::commit] with [update_ref = Some name]
    ([git_commit_create]): the reference is looked up, its current target
    must be the first parent (otherwise [Modified]); the commit object is
    written, then the reference is moved to it.  [backend] is what the
    reference backend reports for that last write because of another
    process ([None]: nothing; e.g. [Locked] while another process holds
    the reference's lock file); the lock itself can also fail
    ([loose_lock]).  Before all this, git2 turns [update_ref] and [msg]
    into C strings ([opt_cstr(update_ref)?], [CString::new(message)?]). *)
Definition repo_commit (backend : option git_error) (s : repo) (update_ref : string)
    (author committer : signature) (msg : string) (tree : oid) (parents : list oid)
    : result oid * repo :=
  if has_nul update_ref || has_nul msg then (Err nul_error, s) else
  if negb (is_valid_name update_ref) then (Err (invalid_spec update_ref), s) else
  let tip_ok :=
    match assoc_find update_ref (refs s) with
    | None => true
    | Some cur => match parents with p :: _ => String.eqb p cur | [] => false end
    end in
  if negb tip_ok then (Err tip_not_first_parent, s) else
  let c := {| c_tree := tree; c_parents := parents; c_author := author;
              c_committer := committer; c_message := msg |} in
  let (s1, id) := odb_write s (OCommit c) in
  match backend with
  | Some e => (Err e, s1)
  | None =>
      match loose_lock s1 update_ref with
      | Some e => (Err e, s1)
      | None => (Ok id, ref_set s1 update_ref id)
      end
  end.

Definition not_tip : git_error :=
  from_str "commit to amend is not the tip of the given branch".

(** [Commit::amend] with [update_ref = Some name] ([git_commit_amend]): the
    reference must currently point at the amended commit; the replacement
    keeps the amended commit's parents, then the reference is moved, as
    in [repo_commit].  git2 first turns [update_ref] and [msg] into C
    strings ([opt_cstr(..)?]). *)
Definition commit_amend (backend : option git_error) (s : repo) (amended : oid)
    (old : commit) (update_ref : string) (author committer : signature)
    (msg : string) (tree : oid) : result oid * repo :=
  if has_nul update_ref || has_nul msg then (Err nul_error, s) else
  if negb (is_valid_name update_ref) then (Err (invalid_spec update_ref), s) else
  match assoc_find update_ref (refs s) with
  | None => (Err (ref_not_found update_ref), s)
  | Some cur =>
      if negb (String.eqb cur amended) then (Err not_tip, s) else
      let c := {| c_tree := tree; c_parents := c_parents old; c_author := author;
                  c_committer := committer; c_message := msg |} in
      let (s1, id) := odb_write s (OCommit c) in
      match backend with
      | Some e => (Err e, s1)
      | None =>
          match loose_lock s1 update_ref with
          | Some e => (Err e, s1)
          | None => (Ok id, ref_set s1 update_ref id)
          end
      end
  end.

(** [Reference::rename] ([CString::new(new_name)?], then
    [git_reference_rename] and the file backend's rename): the new name
    must be valid; without [force] an existing target name is an error;
    the old reference is looked up and deleted (its lock taken as in
    [loose_lock]), then the lock of the new name is taken and the
    reference written there.  [backend0] and [backend1] are what the two
    locks meet from other processes ([None]: nothing). *)
Definition reference_rename (backend0 backend1 : option git_error) (s : repo)
    (old_name new_name : string) (force : bool) : result unit * repo :=
  if has_nul new_name then (Err nul_error, s) else
  if negb (is_valid_name new_name) then (Err (invalid_spec new_name), s) else
  if negb force && match assoc_find new_name (refs s) with Some _ => true | None => false end
  then (Err {| code := Exists;
               message := "failed to write reference '" ++ new_name
                          ++ "': a reference with that name already exists." |}, s)
  else
  match assoc_find old_name (refs s) with
  | None => (Err (ref_not_found old_name), s)
  | Some o =>
      match backend0 with
      | Some e => (Err e, s)
      | None =>
          match loose_lock s old_name with
          | Some e => (Err e, s)
          | None =>
              let s1 := with_refs s (assoc_remove old_name (refs s)) in
              match backend1 with
              | Some e => (Err e, s1)
              | None =>
                  match loose_lock s1 new_name with
                  | Some e => (Err e, s1)
                  | None => (Ok tt, with_refs s1 (assoc_set new_name o (refs s1)))
                  end
              end
          end
      end
  end.

(** [Reference::delete] ([git_reference_delete] with the target the
    [Reference] was read with, and the file backend's delete): the lock is
    taken, then the reference must still point where it did. *)
Definition reference_delete (backend : option git_error) (s : repo) (name : string)
    (old_id : oid) : result unit * repo :=
  match backend with
  | Some e => (Err e, s)
  | None =>
      match loose_lock s name with
      | Some e => (Err e, s)
      | None =>
          match assoc_find name (refs s) with
          | None => (Err (ref_not_found name), s)
          | Some cur =>
              if String.eqb cur old_id
              then (Ok tt, with_refs s (assoc_remove name (refs s)))
              else (Err {| code := Modified; message := "old reference value does not match" |}, s)
          end
      end
  end.

(** ** Reading history *)

(** The revision walk from a commit towards the root.  Commits written by
    this tool have at most one parent, so the walk follows the first
    parent; each step consumes one unit of [fuel], and the walk is started
    with one unit per stored object. *)
Fixpoint walk (fuel : nat) (s : repo) (o : oid) : result (list oid) :=
  match fuel with
  | O => Err (from_str "revwalk: history longer than the object database")
  | S f =>
      match find_commit s o with
      | Err e => Err e
      | Ok c =>
          match c_parents c with
          | [] => Ok [o]
          | p :: _ =>
              match walk f s p with
              | Ok l => Ok (o :: l)
              | Err e => Err e
              end
          end
      end
  end.

(** [revwalk.set_sorting(Sort::REVERSE); revwalk.push_ref(name)]. *)
Definition revwalk_reverse (s : repo) (name : string) : result (list oid) :=
  match refname_to_id s name with
  | Err e => Err e
  | Ok h =>
      match walk (S (length (odb s))) s h with
      | Ok l => Ok (rev l)
      | Err e => Err e
      end
  end.

(** [git_commit_summary]: the first paragraph, with whitespace runs that
    contain a newline collapsed to one space and trailing space dropped
    (the message itself is read with its leading newlines skipped). *)
Fixpoint summary_chars (l : list ascii) (space : option (list ascii * bool)) : list ascii :=
  match l with
  | [] => []
  | c :: r =>
      if Ascii.eqb c "010" && match r with [] => true | d :: _ => Ascii.eqb d "010" end
      then []
      else if is_space c
      then summary_chars r
             (Some match space with
                   | None => ([c], Ascii.eqb c "010")
                   | Some (w, nl) => ((w ++ [c])%list, nl || Ascii.eqb c "010")
                   end)
      else ((match space with
             | None => []
             | Some (w, nl) => if nl then [" "%char] else w
             end) ++ c :: summary_chars r None)%list
  end.

Fixpoint skip_newlines (l : list ascii) : list ascii :=
  match l with
  | c :: r => if Ascii.eqb c "010" then skip_newlines r else l
  | [] => []
  end.

Definition summary (c : commit) : string :=
  string_of_list_ascii (summary_chars (skip_newlines (list_ascii_of_string (c_message c))) None).

(** [Repository::references_glob(prefix ++ "*")]: without [WM_PATHNAME],
    ['*'] also matches ['/'], so every reference under the prefix. *)
Definition references_glob (s : repo) (prefix : string) : list string :=
  map fst (filter (fun kv => match strip_prefix prefix (fst kv) with
                             | Some _ => true | None => false end) (refs s)).

(** ** Output and [BTreeSet<String>] *)

Inductive output :=
| Line (s : string)                          (* println! of one line *)
| JsonCategories (cats : list string)        (* serde_json array of strings *)
| JsonMemos (memos : list (string * string)) (* array of {"oid", "message"} *).

(** [BTreeSet::insert] on a set kept as its ascending, duplicate-free
    element list ([String]'s [Ord] compares bytes lexicographically). *)
Fixpoint set_insert (x : string) (l : list string) : list string :=
  match l with
  | [] => [x]
  | y :: r =>
      match String.compare x y with
      | Lt => x :: l
      | Eq => l
      | Gt => y :: set_insert x r
      end
  end.

(** What a command returns, leaves behind, and prints. *)
Record outcome := { res : returned; st : repo; out : list output }.

Definition nl : string := String "010" EmptyString.

Definition opt_list (o : option oid) : list oid :=
  match o with Some p => [p] | None => [] end.

End Git.

Import Git.

(** * Standard input *)

(** What [std::io::stdin()] delivers: its bytes, or a failure of the
    read, given by the [Display] text of its [io::Error]. *)
Inductive stdin_stream :=
| StdinBytes (bytes : string)
| StdinFailure (reason : string).
Coercion StdinBytes : string >-> stdin_stream.

Inductive read_result :=
| ReadOk (text : string)
| ReadErr (reason : string).

(** [Read::read_to_string] on standard input *)
Definition read_to_string (i : stdin_stream) : read_result :=
  match i with
  | StdinBytes b =>
      if utf8_valid (list_ascii_of_string b) then ReadOk b
      else ReadErr "stream did not contain valid UTF-8"
  | StdinFailure r => ReadErr r
  end.

(** The message of both [add_memo]s: [-] reads standard input, maps a
    read error to ["Failed to read stdin: {e}"] and pops the trailing
    newlines. *)
Definition read_message (message : string) (stdin : stdin_stream) : result string :=
  if String.eqb message "-" then
    match read_to_string stdin with
    | ReadOk t => Ok (strip_trailing_newlines t)
    | ReadErr e => Err (from_str ("Failed to read stdin: " ++ e))
    end
  else Ok message.

(** * The library API: [src/commands.rs] *)
Module Commands.

(** [validate_category]: [git2::Reference::is_valid_name] builds a C
    string with [CString::new(refname).unwrap()], which panics on a NUL
    byte. *)
Definition validate_category (name : string) : returned :=
  let refname := "refs/memo/" ++ name in
  if has_nul refname then Panicked (unwrap_nul_panic refname)
  else if is_valid_name refname then Ok tt
  else Err (from_str ("Invalid category name: " ++ name)).

(** A panic unwinds out of the command: nothing is printed, the repository
    is as the command found it. *)
Definition panicked (s : repo) (p : string) : outcome :=
  {| res := Panicked p; st := s; out := [] |}.

Definition missing_name : git_error :=
  from_str ("Git user.name must be set." ++ nl ++ "Run `git config --global user.name <name>`").

(** [make_signature] *)
Definition make_signature (s : repo) : result signature :=
  match cfg_name s with
  | None => Err missing_name
  | Some name =>
      let email0 := match cfg_email s with Some e => e | None => "" end in
      let email := if is_empty (str_trim email0) then "none" else email0 in
      signature_now s name email
  end.

Definition max_attempts : nat := 5.

(** The error codes [add_memo] treats as a lost race. *)
Definition is_conflict (c : ErrorCode) : bool :=
  match c with
  | NotFastForward | Modified | Locked | Exists => true
  | _ => false
  end.

(** [repo.refname_to_id(&refname).ok().and_then(|oid| repo.find_commit(oid).ok())] *)
Definition read_parent (s : repo) (refname : string) : option oid :=
  match refname_to_id s refname with
  | Ok o => match find_commit s o with Ok _ => Some o | Err _ => None end
  | Err _ => None
  end.

(** One pass of the retry loop, as observed: the state the head was read
    from, the parent read there, the parents of the node built, the
    outcome of [repo.commit] and the state it left. *)
Record attempt_rec := {
  at_index : nat;
  at_read : repo;
  at_parent : option oid;
  at_node_parents : list oid;
  at_outcome : result oid;
  at_after : repo
}.

Section Env.
(** Other processes: [interfere n] is what concurrent writers do to the
    repository between the head read of attempt [n] and its
    [repo.commit]; [backend n] is what the reference backend reports when
    attempt [n] moves the reference. *)
Variable interfere : nat -> repo -> repo.
Variable backend : nat -> option git_error.

(** [for attempt in 0..max_attempts { ... }] followed by the exhaustion
    error; [k] is the number of iterations left. *)
Fixpoint commit_loop (k attempt : nat) (s : repo) (refname : string) (sig : signature)
    (msg : string) (tree : oid) : result oid * repo * list attempt_rec :=
  match k with
  | O => (Err (from_str ("Failed to update " ++ refname ++ " after "
                         ++ string_of_nat max_attempts ++ " attempts")), s, [])
  | S k' =>
      let parent := read_parent s refname in
      let parents := opt_list parent in
      let s1 := interfere attempt s in
      let (r, s2) := repo_commit (backend attempt) s1 refname sig sig msg tree parents in
      let a := {| at_index := attempt; at_read := s; at_parent := parent;
                  at_node_parents := parents; at_outcome := r; at_after := s2 |} in
      match r with
      | Ok o => (Ok o, s2, [a])
      | Err e =>
          if is_conflict (code e) && Nat.ltb (attempt + 1) max_attempts
          then let '(r', s3, tr) := commit_loop k' (S attempt) s2 refname sig msg tree in
               (r', s3, a :: tr)
          else (Err e, s2, [a])
      end
  end.

(** [add_memo], with the trace of its attempts. *)
Definition add_memo_traced (s : repo) (category message : string) (stdin : stdin_stream)
    : outcome * list attempt_rec :=
  match validate_category category with
  | Panicked p => (panicked s p, [])
  | Returned (Err e) => ({| res := Err e; st := s; out := [] |}, [])
  | Returned (Ok _) =>
    match read_message message stdin with
    | Err e => ({| res := Err e; st := s; out := [] |}, [])
    | Ok message =>
      let '(s, tree) := match head_tree s with
                        | Some t => (s, t)
                        | None => odb_write s (OTree "")
                        end in
      match make_signature s with
      | Err e => ({| res := Err e; st := s; out := [] |}, [])
      | Ok sig =>
          let refname := "refs/memo/" ++ category in
          let '(r, s', tr) := commit_loop max_attempts 0 s refname sig message tree in
          match r with
          | Ok o => ({| res := Ok tt; st := s';
                        out := [Line ("Recorded memo " ++ o ++ " under " ++ refname)] |}, tr)
          | Err e => ({| res := Err e; st := s'; out := [] |}, tr)
          end
      end
    end
  end.

Definition add_memo (s : repo) (category message : string) (stdin : stdin_stream) : outcome :=
  fst (add_memo_traced s category message stdin).

(** [edit_memo] *)
Definition edit_memo (s : repo) (category message : string) : outcome :=
  match validate_category category with
  | Panicked p => panicked s p
  | Returned (Err e) => {| res := Err e; st := s; out := [] |}
  | Returned (Ok _) =>
      let refname := "refs/memo/" ++ category in
      match refname_to_id s refname with
      | Err _ => {| res := Ok tt; st := s;
                    out := [Line ("No memos found for category " ++ category)] |}
      | Ok o =>
          match find_commit s o with
          | Err e => {| res := Err e; st := s; out := [] |}
          | Ok c =>
              match make_signature s with
              | Err e => {| res := Err e; st := s; out := [] |}
              | Ok sig =>
                  let s1 := interfere 0 s in
                  let (r, s2) := commit_amend (backend 0) s1 o c refname sig sig message (c_tree c) in
                  match r with
                  | Ok n => {| res := Ok tt; st := s2;
                               out := [Line ("Updated memo " ++ n ++ " under " ++ refname)] |}
                  | Err e => {| res := Err e; st := s2; out := [] |}
                  end
              end
          end
      end
  end.

(** [remove_memos]: the [Reference] found is deleted; other processes
    act in between ([interfere 0]) and at the delete's lock
    ([backend 0]). *)
Definition remove_memos (s : repo) (category : string) : outcome :=
  match validate_category category with
  | Panicked p => panicked s p
  | Returned (Err e) => {| res := Err e; st := s; out := [] |}
  | Returned (Ok _) =>
      let refname := "refs/memo/" ++ category in
      match find_reference s refname with
      | Ok (_, h) =>
          let s1 := interfere 0 s in
          let (r, s') := reference_delete (backend 0) s1 refname h in
          match r with
          | Ok _ => {| res := Ok tt; st := s'; out := [Line ("Removed " ++ refname)] |}
          | Err e => {| res := Err e; st := s'; out := [] |}
          end
      | Err _ => {| res := Ok tt; st := s;
                    out := [Line ("No memos found for category " ++ category)] |}
      end
  end.

(** [archive_category]: the [Reference] found is renamed; other processes
    act in between ([interfere 0]) and at the two locks of the rename
    ([backend 0], [backend 1]). *)
Definition archive_category (s : repo) (category : string) : outcome :=
  match validate_category category with
  | Panicked p => panicked s p
  | Returned (Err e) => {| res := Err e; st := s; out := [] |}
  | Returned (Ok _) =>
      let src := "refs/memo/" ++ category in
      let dst := "refs/archive/" ++ category in
      match find_reference s src with
      | Ok _ =>
          let s1 := interfere 0 s in
          let (r, s') := reference_rename (backend 0) (backend 1) s1 src dst true in
          match r with
          | Ok _ => {| res := Ok tt; st := s'; out := [Line ("Archived " ++ src ++ " to " ++ dst)] |}
          | Err e => {| res := Err e; st := s'; out := [] |}
          end
      | Err _ => {| res := Ok tt; st := s;
                    out := [Line ("No memos found for category " ++ category)] |}
      end
  end.

End Env.

(** The printed memo lines of [list_memos]: [(oid, summary)] per commit,
    stopping at the first [find_commit] error. *)
Fixpoint memo_entries (s : repo) (oids : list oid) : list (string * string) * option git_error :=
  match oids with
  | [] => ([], None)
  | o :: r =>
      match find_commit s o with
      | Err e => ([], Some e)
      | Ok c => let (l, e) := memo_entries s r in ((o, summary c) :: l, e)
      end
  end.

(** Printing of the walked memos, shared by both copies of [list_memos]. *)
Definition print_memos (s : repo) (oids : list oid) (json_output : bool) : outcome :=
  let (entries, err) := memo_entries s oids in
  let lines := map (fun om => Line (fst om ++ " " ++ snd om)) entries in
  match err, json_output with
  | None, true => {| res := Ok tt; st := s; out := [JsonMemos entries] |}
  | None, false => {| res := Ok tt; st := s; out := lines |}
  | Some e, true => {| res := Err e; st := s; out := [] |}
  | Some e, false => {| res := Err e; st := s; out := lines |}
  end.

(** [list_memos] *)
Definition list_memos (s : repo) (category : string) (json_output : bool) : outcome :=
  match validate_category category with
  | Panicked p => panicked s p
  | Returned (Err e) => {| res := Err e; st := s; out := [] |}
  | Returned (Ok _) =>
      let refname := "refs/memo/" ++ category in
      match refname_to_id s refname with
      | Err _ => {| res := Ok tt; st := s;
                    out := [Line ("No memos found for category " ++ category)] |}
      | Ok _ =>
          match revwalk_reverse s refname with
          | Err e => {| res := Err e; st := s; out := [] |}
          | Ok oids => print_memos s oids json_output
          end
      end
  end.

(** The [BTreeSet] built by both category listings. *)
Definition category_set (s : repo) (prefix : string) : list string :=
  fold_left (fun acc name => match strip_prefix prefix name with
                             | Some cat => set_insert cat acc
                             | None => acc
                             end) (references_glob s prefix) [].

Definition print_categories (cats : list string) (json_output : bool) : list output :=
  if json_output then [JsonCategories cats] else map Line cats.

(** [list_categories] *)
Definition list_categories (s : repo) (json_output : bool) : outcome :=
  {| res := Ok tt; st := s;
     out := print_categories (category_set s "refs/memo/") json_output |}.

(** [list_archive_categories] *)
Definition list_archive_categories (s : repo) (json_output : bool) : outcome :=
  {| res := Ok tt; st := s;
     out := print_categories (category_set s "refs/archive/") json_output |}.

End Commands.

(** * The binary's private copies: [src/main.rs]

    [main] dispatches to functions of its own, which do not call
    [validate_category] and whose [add_memo] makes a single attempt. *)
Module Main.

Section Env.
Variable interfere : nat -> repo -> repo.
Variable backend : nat -> option git_error.

(** [add_memo] of [main.rs] *)
Definition add_memo (s : repo) (category message : string) (stdin : stdin_stream) : outcome :=
  match read_message message stdin with
  | Err e => {| res := Err e; st := s; out := [] |}
  | Ok message =>
  let '(s, tree) := match head_tree s with
                    | Some t => (s, t)
                    | None => odb_write s (OTree "")
                    end in
  let sig :=
    match cfg_name s with
    | None => Err Commands.missing_name
    | Some name =>
        let email0 := match cfg_email s with Some e => e | None => "" end in
        let email := if is_empty (str_trim email0) then "none" else email0 in
        signature_now s name email
    end in
  match sig with
  | Err e => {| res := Err e; st := s; out := [] |}
  | Ok sig =>
      let refname := "refs/memo/" ++ category in
      let parents := opt_list (Commands.read_parent s refname) in
      let s1 := interfere 0 s in
      let (r, s2) := repo_commit (backend 0) s1 refname sig sig message tree parents in
      match r with
      | Ok o => {| res := Ok tt; st := s2;
                   out := [Line ("Recorded memo " ++ o ++ " under " ++ refname)] |}
      | Err e => {| res := Err e; st := s2; out := [] |}
      end
  end
  end.

(** [edit_memo] of [main.rs]: the signature comes from [repo.signature()]. *)
Definition edit_memo (s : repo) (category message : string) : outcome :=
  let refname := "refs/memo/" ++ category in
  match refname_to_id s refname with
  | Err _ => {| res := Ok tt; st := s;
                out := [Line ("No memos found for category " ++ category)] |}
  | Ok o =>
      match find_commit s o with
      | Err e => {| res := Err e; st := s; out := [] |}
      | Ok c =>
          match repo_signature s with
          | Err e => {| res := Err e; st := s; out := [] |}
          | Ok sig =>
              let s1 := interfere 0 s in
              let (r, s2) := commit_amend (backend 0) s1 o c refname sig sig message (c_tree c) in
              match r with
              | Ok n => {| res := Ok tt; st := s2;
                           out := [Line ("Updated memo " ++ n ++ " under " ++ refname)] |}
              | Err e => {| res := Err e; st := s2; out := [] |}
              end
          end
      end
  end.

(** [remove_memos] of [main.rs] *)
Definition remove_memos (s : repo) (category : string) : outcome :=
  let refname := "refs/memo/" ++ category in
  match find_reference s refname with
  | Ok (_, h) =>
      let s1 := interfere 0 s in
      let (r, s') := reference_delete (backend 0) s1 refname h in
      match r with
      | Ok _ => {| res := Ok tt; st := s'; out := [Line ("Removed " ++ refname)] |}
      | Err e => {| res := Err e; st := s'; out := [] |}
      end
  | Err _ => {| res := Ok tt; st := s;
                out := [Line ("No memos found for category " ++ category)] |}
  end.

(** [archive_category] of [main.rs] *)
Definition archive_category (s : repo) (category : string) : outcome :=
  let src := "refs/memo/" ++ category in
  let dst := "refs/archive/" ++ category in
  match find_reference s src with
  | Ok _ =>
      let s1 := interfere 0 s in
      let (r, s') := reference_rename (backend 0) (backend 1) s1 src dst true in
      match r with
      | Ok _ => {| res := Ok tt; st := s'; out := [Line ("Archived " ++ src ++ " to " ++ dst)] |}
      | Err e => {| res := Err e; st := s'; out := [] |}
      end
  | Err _ => {| res := Ok tt; st := s;
                out := [Line ("No memos found for category " ++ category)] |}
  end.

End Env.

(** [list_memos] of [main.rs] *)
Definition list_memos (s : repo) (category : string) (json_output : bool) : outcome :=
  let refname := "refs/memo/" ++ category in
  match refname_to_id s refname with
  | Err _ => {| res := Ok tt; st := s;
                out := [Line ("No memos found for category " ++ category)] |}
  | Ok _ =>
      match revwalk_reverse s refname with
      | Err e => {| res := Err e; st := s; out := [] |}
      | Ok oids => Commands.print_memos s oids json_output
      end
  end.

(** [list_categories] of [main.rs] *)
Definition list_categories (s : repo) (json_output : bool) : outcome :=
  {| res := Ok tt; st := s;
     out := Commands.print_categories (Commands.category_set s "refs/memo/") json_output |}.

End Main.

(** * Sample repositories *)

Definition alice_repo : repo :=
  {| refs := []; odb := []; head_tree := None; cfg_name := Some "Alice";
     cfg_email := Some "alice@example.com"; clock := 1000; tz := 0 |}.

Definition no_interference (_ : nat) (s : repo) : repo := s.
Definition no_backend_error (_ : nat) : option git_error := None.


(** A repository holding one memo in [refs/memo/todo]. *)
Definition todo_repo : repo :=
  st (Commands.add_memo no_interference no_backend_error alice_repo "todo" "first memo" "").

(** Another process appending to [refs/memo/todo] (sequentially, from
    its own point of view) between a head read and the commit that uses it. *)
Definition concurrent_append (n : nat) (s : repo) : repo :=
  st (Commands.add_memo no_interference no_backend_error s "todo"
        ("concurrent " ++ string_of_nat n) "").

(** The same, racing only with the first attempt. *)
Definition one_concurrent_append (n : nat) (s : repo) : repo :=
  if Nat.eqb n 0 then concurrent_append n s else s.

(** The head of [refs/memo/todo] in [todo_repo]. *)
Definition todo_head : oid :=
  match assoc_find "refs/memo/todo" (refs todo_repo) with Some h => h | None => "" end.

(** A repository where [todo] has two memos and was archived once before,
    when it held only the first one. *)
Definition rearchive_repo : repo :=
  ref_set (st (Commands.add_memo no_interference no_backend_error todo_repo "todo" "second memo" ""))
          "refs/archive/todo" todo_head.

(** The value of a successful result, [d] otherwise. *)
Definition ok_or {A} (d : A) (r : result A) : A :=
  match r with Ok x => x | Err _ => d end.

Definition blank_sig : signature :=
  {| sig_name := ""; sig_email := ""; sig_time := 0; sig_offset := 0 |}.

Definition blank_commit : commit :=
  {| c_tree := ""; c_parents := []; c_author := blank_sig; c_committer := blank_sig;
     c_message := "" |}.

(** The commit at the head of [refs/memo/todo] in [todo_repo]. *)
Definition todo_commit : commit := ok_or blank_commit (find_commit todo_repo todo_head).

(** Alice's signature in [todo_repo]. *)
Definition todo_sig : signature := ok_or blank_sig (Commands.make_signature todo_repo).

(** * Vocabulary of the statements *)

(** The tree both [add_memo]s commit, and the state after choosing it:
    [HEAD]'s tree, or the empty tree written to the object database. *)
Definition add_tree (s : repo) : repo * oid :=
  match head_tree s with
  | Some t => (s, t)
  | None => odb_write s (OTree "")
  end.

(** The message both [add_memo]s record when standard input, if read,
    is valid UTF-8 ([read_message_add_message]). *)
Definition add_message (message stdin : string) : string :=
  if String.eqb message "-" then strip_trailing_newlines stdin else message.

(** The pointer of a category is absent or names a stored commit (stored
    under its own id). *)
Definition head_is_commit (s : repo) (refname : string) : Prop :=
  match assoc_find refname (refs s) with
  | None => True
  | Some h => exists c, find_commit s h = Ok c /\ h = commit_id c
  end.

(** The line [list_memos] shows for a message: [commit.summary()]. *)
Definition message_summary (m : string) : string :=
  string_of_list_ascii (summary_chars (skip_newlines (list_ascii_of_string m)) None).

(** [o] is a stored commit with payload [p] whose parent list is [prev]'s. *)
Definition chain_node (s : repo) (prev : option oid) (o : oid) (p : string) : Prop :=
  exists c, find_commit s o = Ok c /\ o = commit_id c /\ c_message c = p /\
            c_parents c = opt_list prev.

(** The nodes [oids], oldest first, carry the payloads [ps], and each
    one's parent is the one before it ([prev] for the first). *)
Fixpoint linked (s : repo) (prev : option oid) (oids : list oid) (ps : list string) : Prop :=
  match oids, ps with
  | [], [] => True
  | o :: os, p :: qs => chain_node s prev o p /\ linked s (Some o) os qs
  | _, _ => False
  end.

Fixpoint last_opt (prev : option oid) (oids : list oid) : option oid :=
  match oids with
  | [] => prev
  | o :: os => last_opt (Some o) os
  end.

(** A single writer appending the payloads [ps] one after the other with
    the library's [add] (no other process involved). *)
Fixpoint append_all (s : repo) (category : string) (ps : list string) : repo * list outcome :=
  match ps with
  | [] => (s, [])
  | p :: qs =>
      let o := Commands.add_memo no_interference no_backend_error s category p "" in
      let (sn, os) := append_all (st o) category qs in
      (sn, o :: os)
  end.

(** [alice_repo] with a checked-out [HEAD] whose tree has the entries
    [entries]. *)
Definition tree_repo (entries : string) : repo :=
  {| refs := []; odb := [(object_id (OTree entries), OTree entries)];
     head_tree := Some (object_id (OTree entries)); cfg_name := Some "Alice";
     cfg_email := Some "alice@example.com"; clock := 1000; tz := 0 |}.

(** [alice_repo] without [user.name]. *)
Definition nameless_repo : repo :=
  {| refs := []; odb := []; head_tree := None; cfg_name := None;
     cfg_email := Some "alice@example.com"; clock := 1000; tz := 0 |}.

(** [alice_repo] with a blank [user.email]. *)
Definition blank_email_repo : repo :=
  {| refs := []; odb := []; head_tree := None; cfg_name := Some "Alice";
     cfg_email := Some "  "; clock := 1000; tz := 0 |}.

(** The loose file of reference [name] can be locked: no reference is
    stored inside the folder [name/], and none where a folder of [name]'s
    path should be. *)
Definition path_free (s : repo) (name : string) : Prop :=
  forall kv, In kv (refs s) -> in_folder name (fst kv) = false /\ in_folder (fst kv) name = false.

(** Strict ascending order of [String]'s [Ord]. *)
Definition str_lt (a b : string) : Prop := String.compare a b = Lt.

(** * Running the [git] executable: [run_git], [grep_memos], [push_memos] *)
Module Process.

(** What [Command::new("git").args(args).current_dir(workdir).output()]
    yields: the process ran (exit status success or not, its standard
    output and error), or it could not be started. *)
Inductive process_output :=
| Spawned (success : bool) (stdout stderr : string)
| SpawnFailed (reason : string).

(** A command that prints raw text: its result and what it wrote to
    standard output. *)
Record printed := { p_res : result unit; p_stdout : string }.

Section Runner.
(** The [git] executable run in the repository's work tree, as a function
    of its arguments. *)
Variable git : list string -> process_output.

(** [run_git]: the standard output on success; [stderr] as the error on a
    failing exit status; a "Failed to run git" error when it cannot start. *)
Definition run_git (args : list string) (action : string) : result string :=
  match git args with
  | SpawnFailed e => Err (from_str ("Failed to run git " ++ action ++ ": " ++ e))
  | Spawned true out _ => Ok out
  | Spawned false _ err => Err (from_str err)
  end.

(** The argument vector of [grep_memos]. *)
Definition grep_args (s : repo) (pattern : string) : list string :=
  (["log"; "--format=%s"; "--grep"; pattern] ++ references_glob s "refs/memo/")%list.

(** [grep_memos] *)
Definition grep_memos (s : repo) (pattern : string) : printed :=
  let args := grep_args s pattern in
  if Nat.eqb (length args) 4 then {| p_res := Ok tt; p_stdout := "No memos found" ++ nl |}
  else match run_git args "log" with
       | Ok out => {| p_res := Ok tt; p_stdout := out |}
       | Err e => {| p_res := Err e; p_stdout := "" |}
       end.

(** [push_memos] *)
Definition push_memos (remote : string) : printed :=
  match run_git ["push"; remote; "refs/memo/*:refs/memo/*"] "push" with
  | Ok out => {| p_res := Ok tt; p_stdout := out |}
  | Err e => {| p_res := Err e; p_stdout := "" |}
  end.

End Runner.
End Process.

(** Letters, digits, ['-'] and ['_']. *)
Definition plain_char (c : ascii) : bool :=
  let n := nat_of_ascii c in
  (Nat.leb 97 n && Nat.leb n 122) || (Nat.leb 65 n && Nat.leb n 90)
  || (Nat.leb 48 n && Nat.leb n 57) || Nat.eqb n 45 || Nat.eqb n 95.

(** [alice_repo] with a name [git2] refuses in a signature. *)
Definition bracket_name_repo : repo :=
  {| refs := []; odb := []; head_tree := None; cfg_name := Some "<Alice>";
     cfg_email := Some "alice@example.com"; clock := 1000; tz := 0 |}.

(** [todo_repo] without [user.email]. *)
Definition emailless_todo_repo : repo :=
  {| refs := refs todo_repo; odb := odb todo_repo; head_tree := head_tree todo_repo;
     cfg_name := Some "Alice"; cfg_email := None; clock := 1000; tz := 0 |}.

(** [todo_repo] with a second memo. *)
Definition todo2_repo : repo :=
  st (Commands.add_memo no_interference no_backend_error todo_repo "todo" "second memo" "").

(** [git] as a function that prints one line for any [log] and fails
    otherwise. *)
Definition sample_git (args : list string) : Process.process_output :=
  match args with
  | "log" :: _ => Process.Spawned true ("first memo" ++ nl) ""
  | _ => Process.Spawned false "" ("unknown command" ++ nl)
  end.

(** * Generic lemmas *)

Lemma ascii_compare_refl (a : ascii) : Ascii.compare a a = Eq.
Proof. unfold Ascii.compare. apply N.compare_refl. Qed.

Lemma ascii_compare_lt_trans (a b c : ascii) :
  Ascii.compare a b = Lt -> Ascii.compare b c = Lt -> Ascii.compare a c = Lt.
Proof. unfold Ascii.compare. rewrite !N.compare_lt_iff. lia. Qed.

Lemma string_compare_lt_trans (a b c : string) :
  String.compare a b = Lt -> String.compare b c = Lt -> String.compare a c = Lt.
Proof.
  revert b c; induction a as [|x a IH]; intros [|y b] [|z c]; simpl;
    intros H1 H2; try discriminate; auto.
  destruct (Ascii.compare x y) eqn:E1; try discriminate;
  destruct (Ascii.compare y z) eqn:E2; try discriminate.
  - apply Ascii.compare_eq_iff in E1; apply Ascii.compare_eq_iff in E2; subst.
    rewrite ascii_compare_refl. eauto.
  - apply Ascii.compare_eq_iff in E1; subst. now rewrite E2.
  - apply Ascii.compare_eq_iff in E2; subst. now rewrite E1.
  - now rewrite (ascii_compare_lt_trans _ _ _ E1 E2).
Qed.


Lemma set_insert_In (x z : string) (l : list string) :
  In z (set_insert x l) <-> z = x \/ In z l.
Proof.
  induction l as [|y r IH]; simpl; [intuition congruence|].
  destruct (String.compare x y) eqn:E; simpl.
  - apply String.compare_eq_iff in E; subst. intuition congruence.
  - intuition congruence.
  - rewrite IH. intuition congruence.
Qed.

Lemma set_insert_sorted (x : string) (l : list string) :
  StronglySorted str_lt l -> StronglySorted str_lt (set_insert x l).
Proof.
  induction l as [|y r IH]; simpl; intros H.
  - repeat constructor.
  - inversion H as [|? ? Hr Hall]; subst.
    destruct (String.compare x y) eqn:E.
    + exact H.
    + constructor; [exact H|]. constructor; [exact E|].
      rewrite Forall_forall in *. intros z Hz.
      exact (string_compare_lt_trans _ _ _ E (Hall z Hz)).
    + constructor; [now apply IH|].
      rewrite Forall_forall in *. intros z Hz.
      apply set_insert_In in Hz as [->|Hz]; [|now apply Hall].
      unfold str_lt. rewrite String.compare_antisym, E. reflexivity.
Qed.

Lemma category_set_spec (s : repo) (prefix : string) :
  StronglySorted str_lt (Commands.category_set s prefix) /\
  (forall c, In c (Commands.category_set s prefix) <->
             exists name, In name (references_glob s prefix) /\ strip_prefix prefix name = Some c).
Proof.
  unfold Commands.category_set.
  assert (G : forall names acc, StronglySorted str_lt acc ->
    StronglySorted str_lt
      (fold_left (fun acc name => match strip_prefix prefix name with
                                  | Some cat => set_insert cat acc
                                  | None => acc end) names acc) /\
    (forall c, In c (fold_left (fun acc name => match strip_prefix prefix name with
                                  | Some cat => set_insert cat acc
                                  | None => acc end) names acc) <->
               In c acc \/ exists name, In name names /\ strip_prefix prefix name = Some c)).
  { induction names as [|n ns IH]; intros acc Hacc; simpl.
    - split; [exact Hacc|]. intros c. split; [tauto|].
      intros [H|[? [[] _]]]; exact H.
    - destruct (strip_prefix prefix n) as [cat|] eqn:Hn.
      + destruct (IH (set_insert cat acc)) as [IH1 IH2]; [now apply set_insert_sorted|].
        split; [exact IH1|]. intros c. rewrite IH2, set_insert_In. split.
        * intros [[->|H]|[name [H1 H2]]]; [right; exists n; auto|left; exact H|].
          right; exists name; auto.
        * intros [H|[name [[<-|H1] H2]]]; [left; right; exact H| |].
          -- left; left. congruence.
          -- right; exists name; auto.
      + destruct (IH acc Hacc) as [IH1 IH2]. split; [exact IH1|]. intros c.
        rewrite IH2. split.
        * intros [H|[name [H1 H2]]]; [left; exact H|right; exists name; auto].
        * intros [H|[name [[<-|H1] H2]]]; [left; exact H| |right; exists name; auto].
          congruence. }
  destruct (G (references_glob s prefix) [] (SSorted_nil _)) as [G1 G2].
  split; [exact G1|]. intros c. rewrite G2. simpl. tauto.
Qed.

Lemma string_compare_refl (a : string) : String.compare a a = Eq.
Proof. induction a as [|x a IH]; simpl; [reflexivity|]. now rewrite ascii_compare_refl. Qed.

Lemma sorted_nodup (l : list string) : StronglySorted str_lt l -> NoDup l.
Proof.
  induction 1 as [|x l _ IH Hall]; constructor; [|exact IH].
  intros Hin. rewrite Forall_forall in Hall. specialize (Hall x Hin).
  unfold str_lt in Hall. now rewrite string_compare_refl in Hall.
Qed.

Lemma path_free_iff (s : repo) (name : string) :
  path_free s name <-> loose_lock s name = None.
Proof.
  unfold path_free, loose_lock. split.
  - intros H.
    destruct (existsb (fun kv => in_folder (fst kv) name) (refs s)) eqn:E1.
    { apply existsb_exists in E1 as [kv [Hin Hf]]. now rewrite (proj2 (H kv Hin)) in Hf. }
    destruct (existsb (fun kv => in_folder name (fst kv)) (refs s)) eqn:E2; [|reflexivity].
    apply existsb_exists in E2 as [kv [Hin Hf]]. now rewrite (proj1 (H kv Hin)) in Hf.
  - intros H kv Hin.
    destruct (existsb (fun kv => in_folder (fst kv) name) (refs s)) eqn:E1; [discriminate|].
    destruct (existsb (fun kv => in_folder name (fst kv)) (refs s)) eqn:E2; [discriminate|].
    split; apply not_true_is_false; intros Hf.
    + assert (X : existsb (fun kv => in_folder name (fst kv)) (refs s) = true)
        by (apply existsb_exists; eauto). congruence.
    + assert (X : existsb (fun kv => in_folder (fst kv) name) (refs s) = true)
        by (apply existsb_exists; eauto). congruence.
Qed.

Lemma loose_lock_with_odb (s : repo) (d : list (oid * object)) (name : string) :
  loose_lock (with_odb s d) name = loose_lock s name.
Proof. reflexivity. Qed.

Lemma loose_lock_refs (s s' : repo) (name : string) :
  refs s = refs s' -> loose_lock s name = loose_lock s' name.
Proof. intros H. unfold loose_lock. now rewrite H. Qed.

Lemma loose_lock_none (s : repo) (name : string) :
  path_free s name -> loose_lock s name = None.
Proof. apply path_free_iff. Qed.

Lemma path_free_remove (s : repo) (k name : string) :
  path_free s name -> path_free (with_refs s (assoc_remove k (refs s))) name.
Proof.
  intros H kv Hin. apply H. simpl in Hin. unfold assoc_remove in Hin.
  apply filter_In in Hin. apply Hin.
Qed.

Lemma in_folder_self (a : string) : in_folder a a = false.
Proof.
  unfold in_folder. induction a as [|c a IH]; [reflexivity|].
  simpl. rewrite Ascii.eqb_refl. destruct (strip_prefix (a ++ "/") a); [discriminate|reflexivity].
Qed.

Lemma In_assoc_set_cases {A} (k : string) (v : A) (l : list (string * A)) (kv : string * A) :
  In kv (assoc_set k v l) -> In kv l \/ kv = (k, v).
Proof.
  induction l as [|[k' v'] r IH]; simpl; [intuition|].
  destruct (String.eqb k k'); simpl; intros [H|H]; subst; auto.
  destruct (IH H); auto.
Qed.

(** Moving reference [name] keeps its loose file lockable. *)
Lemma path_free_set_same (s : repo) (name : string) (v : oid) :
  path_free s name -> path_free (with_refs s (assoc_set name v (refs s))) name.
Proof.
  intros H kv Hin. simpl in Hin.
  destruct (In_assoc_set_cases _ _ _ _ Hin) as [Hin0|Heq]; [now apply H|]. subst kv.
  simpl. now rewrite in_folder_self.
Qed.

Lemma read_message_plain (message : string) (stdin : stdin_stream) :
  message <> "-" -> read_message message stdin = Ok message.
Proof.
  intros H. unfold read_message. apply String.eqb_neq in H. now rewrite H.
Qed.

(** When standard input holds valid UTF-8, [read_message] returns
    [add_message]. *)
Lemma read_message_add_message (message stdin : string) :
  utf8_valid (list_ascii_of_string stdin) = true ->
  read_message message (StdinBytes stdin) = Ok (add_message message stdin).
Proof.
  intros H. unfold read_message, add_message, read_to_string.
  destruct (String.eqb message "-"); [now rewrite H|reflexivity].
Qed.

Lemma has_nul_app (a b : string) : has_nul (a ++ b) = has_nul a || has_nul b.
Proof.
  unfold has_nul. induction a as [|c a IH]; simpl; [reflexivity|].
  rewrite IH. apply orb_assoc.
Qed.

Lemma has_nul_memo (c : string) : has_nul ("refs/memo/" ++ c) = has_nul c.
Proof. reflexivity. Qed.

Lemma has_nul_archive (c : string) : has_nul ("refs/archive/" ++ c) = has_nul c.
Proof. reflexivity. Qed.

(** An accepted category name is free of NUL bytes and valid. *)
Lemma validate_category_ok (c : string) :
  Commands.validate_category c = Ok tt ->
  has_nul ("refs/memo/" ++ c) = false /\ is_valid_name ("refs/memo/" ++ c) = true.
Proof.
  unfold Commands.validate_category.
  destruct (has_nul ("refs/memo/" ++ c)); [discriminate|].
  destruct (is_valid_name ("refs/memo/" ++ c)); [auto|discriminate].
Qed.

(** A rejected category name is free of NUL bytes and invalid. *)
Lemma validate_category_err (c : string) (e : git_error) :
  Commands.validate_category c = Err e ->
  has_nul ("refs/memo/" ++ c) = false /\ is_valid_name ("refs/memo/" ++ c) = false.
Proof.
  unfold Commands.validate_category.
  destruct (has_nul ("refs/memo/" ++ c)); [discriminate|].
  destruct (is_valid_name ("refs/memo/" ++ c)); [discriminate|auto].
Qed.

(** * The claims *)


(** C7: for a valid category whose pointer is absent, listing, editing,
    archiving and removing (in the library and in the binary's copies)
    all return [Ok], print that no memos exist for the category, and leave
    the repository unchanged. *)
Theorem absent_pointer_reports_no_log
    (interfere : nat -> repo -> repo) (backend : nat -> option git_error)
    (s : repo) (category message : string) (json_output : bool) :
  Commands.validate_category category = Ok tt ->
  assoc_find ("refs/memo/" ++ category) (refs s) = None ->
  let none := {| res := Ok tt; st := s;
                 out := [Line ("No memos found for category " ++ category)] |} in
  Commands.list_memos s category json_output = none /\
  Commands.edit_memo interfere backend s category message = none /\
  Commands.archive_category interfere backend s category = none /\
  Commands.remove_memos interfere backend s category = none /\
  Main.list_memos s category json_output = none /\
  Main.edit_memo interfere backend s category message = none /\
  Main.archive_category interfere backend s category = none /\
  Main.remove_memos interfere backend s category = none.
Proof.
  intros Hv Habs none.
  destruct (validate_category_ok category Hv) as [Hn Hok].
  assert (R : refname_to_id s ("refs/memo/" ++ category) = Err (ref_not_found ("refs/memo/" ++ category))).
  { unfold refname_to_id. rewrite Hn, Hok, Habs. reflexivity. }
  unfold Commands.list_memos, Commands.edit_memo, Commands.archive_category,
    Commands.remove_memos, Main.list_memos, Main.edit_memo, Main.archive_category,
    Main.remove_memos, find_reference.
  rewrite Hv, R. repeat split; reflexivity.
Qed.

(** Every category-taking command of the library checks the name first:
    on a name [validate_category] rejects (a NUL-free invalid name) it
    returns the validation error, prints nothing and leaves the repository
    as it was, whatever that repository holds and whatever other
    processes do; on a name with a NUL byte, [validate_category] panics
    and so does every command, before touching the repository. *)
Lemma library_rejects_invalid_category
    (interfere : nat -> repo -> repo) (backend : nat -> option git_error)
    (s : repo) (category message : string) (stdin : stdin_stream) (json_output : bool) :
  (forall e : git_error,
     Commands.validate_category category = Err e ->
     has_nul category = false /\
     let rejected := {| res := Err e; st := s; out := [] |} in
     Commands.add_memo interfere backend s category message stdin = rejected /\
     Commands.list_memos s category json_output = rejected /\
     Commands.edit_memo interfere backend s category message = rejected /\
     Commands.archive_category interfere backend s category = rejected /\
     Commands.remove_memos interfere backend s category = rejected) /\
  (has_nul category = true ->
     let p := unwrap_nul_panic ("refs/memo/" ++ category) in
     Commands.validate_category category = Panicked p /\
     let panic := {| res := Panicked p; st := s; out := [] |} in
     Commands.add_memo interfere backend s category message stdin = panic /\
     Commands.list_memos s category json_output = panic /\
     Commands.edit_memo interfere backend s category message = panic /\
     Commands.archive_category interfere backend s category = panic /\
     Commands.remove_memos interfere backend s category = panic).
Proof.
  split.
  - intros e Hv.
    destruct (validate_category_err category e Hv) as [Hn _].
    rewrite has_nul_memo in Hn. split; [exact Hn|].
    unfold Commands.add_memo, Commands.add_memo_traced, Commands.list_memos,
      Commands.edit_memo, Commands.archive_category, Commands.remove_memos.
    rewrite Hv. repeat split; reflexivity.
  - intros Hn p.
    assert (Hv : Commands.validate_category category = Panicked p).
    { unfold Commands.validate_category, p. rewrite has_nul_memo, Hn. reflexivity. }
    split; [exact Hv|].
    unfold Commands.add_memo, Commands.add_memo_traced, Commands.list_memos,
      Commands.edit_memo, Commands.archive_category, Commands.remove_memos.
    rewrite Hv. repeat split; reflexivity.
Qed.

(** C4 (binary): the binary's own commands never validate the category.
    With the name ["bad category"], which the library's
    [validate_category] rejects, the binary's [list], [remove], [archive]
    and [edit] succeed and report that no memos exist, and its [add]
    reaches the store (it writes the empty tree) and fails with libgit2's
    invalid-reference-name error instead of the invalid-category error. *)
Theorem binary_skips_category_validation :
  Commands.validate_category "bad category"
    = Err (from_str "Invalid category name: bad category") /\
  let none := {| res := Ok tt; st := alice_repo;
                 out := [Line "No memos found for category bad category"] |} in
  Main.list_memos alice_repo "bad category" false = none /\
  Main.remove_memos no_interference no_backend_error alice_repo "bad category" = none /\
  Main.archive_category no_interference no_backend_error alice_repo "bad category" = none /\
  Main.edit_memo no_interference no_backend_error alice_repo "bad category" "msg" = none /\
  res (Main.add_memo no_interference no_backend_error alice_repo "bad category" "msg" "")
    = Err (invalid_spec "refs/memo/bad category") /\
  odb (st (Main.add_memo no_interference no_backend_error alice_repo "bad category" "msg" ""))
    = [(empty_tree_id, OTree "")].
Proof. vm_compute. repeat split; reflexivity. Qed.

(** C1 (binary): the binary's [add] reads the head once and commits once.
    When another writer appends between the two, it fails with the
    conflict, leaves the other writer's head in place, and never re-reads
    the head; the library's [add_memo] in the same race retries and
    records the memo. *)
Theorem binary_append_not_retried :
  let m := Main.add_memo one_concurrent_append no_backend_error todo_repo "todo" "mine" "" in
  res m = Err tip_not_first_parent /\
  refs (st m) = refs (concurrent_append 0 todo_repo) /\
  out m = [] /\
  res (Commands.add_memo one_concurrent_append no_backend_error todo_repo "todo" "mine" "")
    = Ok tt.
Proof. vm_compute. repeat split; reflexivity. Qed.

(** C2: when a conflicting writer gets in before every one of the five
    attempts, the library's [add_memo] returns the fifth attempt's raw
    conflict error ([Modified], "current tip is not the first parent"),
    not the "Failed to update refs/memo/todo after 5 attempts" error. *)
Theorem library_exhaustion_error_unreachable :
  let r := Commands.add_memo_traced concurrent_append no_backend_error todo_repo "todo" "mine" "" in
  length (snd r) = 5 /\
  res (fst r) = Err tip_not_first_parent /\
  res (fst r) <> Err (from_str "Failed to update refs/memo/todo after 5 attempts").
Proof. vm_compute. split; [reflexivity|]. split; [reflexivity|]. discriminate. Qed.

(** The retry loop of the library's [add_memo], attempt by attempt: at
    most [k] attempts; attempt [i] reads the head from the state it starts
    in and builds its node on that head; an attempt is followed by another
    only after a conflict, and the next one starts from the state the
    conflicting one left (so it re-reads the current head); the loop's
    result is the last attempt's outcome, and a last attempt that lost a
    race is one at the ceiling. *)
Lemma commit_loop_attempts
    (interfere : nat -> repo -> repo) (backend : nat -> option git_error)
    (k : nat) : forall attempt s refname sig msg tree r s' tr,
  attempt + k = Commands.max_attempts ->
  Commands.commit_loop interfere backend k attempt s refname sig msg tree = (r, s', tr) ->
  length tr <= k /\
  (forall i a, nth_error tr i = Some a ->
     Commands.at_index a = attempt + i /\
     Commands.at_parent a = Commands.read_parent (Commands.at_read a) refname /\
     Commands.at_node_parents a = opt_list (Commands.at_parent a)) /\
  (forall a, nth_error tr 0 = Some a -> Commands.at_read a = s) /\
  (forall i a b, nth_error tr i = Some a -> nth_error tr (S i) = Some b ->
     (exists e, Commands.at_outcome a = Err e /\ Commands.is_conflict (code e) = true) /\
     Commands.at_read b = Commands.at_after a) /\
  (0 < k -> exists a, nth_error tr (length tr - 1) = Some a /\
     r = Commands.at_outcome a /\ s' = Commands.at_after a /\
     (forall e, Commands.at_outcome a = Err e -> Commands.is_conflict (code e) = true ->
                Commands.max_attempts <= Commands.at_index a + 1)).
Proof.
  induction k as [|k IH]; intros attempt s refname sig msg tree r s' tr Hk Hrun.
  - simpl in Hrun. inversion Hrun; subst. simpl.
    split; [lia|]. split; [intros [|i] a H; discriminate|].
    split; [intros a H; discriminate|].
    split; [intros [|i] a b H; discriminate|]. intros H; lia.
  - simpl in Hrun.
    destruct (repo_commit (backend attempt) (interfere attempt s) refname sig sig msg tree
                (opt_list (Commands.read_parent s refname))) as [rc s2] eqn:Hc.
    set (a := {| Commands.at_index := attempt; Commands.at_read := s;
                 Commands.at_parent := Commands.read_parent s refname;
                 Commands.at_node_parents := opt_list (Commands.read_parent s refname);
                 Commands.at_outcome := rc; Commands.at_after := s2 |}) in *.
    assert (Single : r = rc -> s' = s2 -> tr = [a] ->
      (forall e, rc = Err e -> Commands.is_conflict (code e) = true ->
                 Commands.max_attempts <= attempt + 1) ->
      length tr <= S k /\
      (forall i a0, nth_error tr i = Some a0 ->
         Commands.at_index a0 = attempt + i /\
         Commands.at_parent a0 = Commands.read_parent (Commands.at_read a0) refname /\
         Commands.at_node_parents a0 = opt_list (Commands.at_parent a0)) /\
      (forall a0, nth_error tr 0 = Some a0 -> Commands.at_read a0 = s) /\
      (forall i a0 b, nth_error tr i = Some a0 -> nth_error tr (S i) = Some b ->
         (exists e, Commands.at_outcome a0 = Err e /\ Commands.is_conflict (code e) = true) /\
         Commands.at_read b = Commands.at_after a0) /\
      (0 < S k -> exists a0, nth_error tr (length tr - 1) = Some a0 /\
         r = Commands.at_outcome a0 /\ s' = Commands.at_after a0 /\
         (forall e, Commands.at_outcome a0 = Err e -> Commands.is_conflict (code e) = true ->
                    Commands.max_attempts <= Commands.at_index a0 + 1))).
    { intros -> -> -> Hlast. simpl.
      split; [lia|].
      split; [intros [|[|i]] a0 H; try discriminate; inversion H; subst; simpl;
              split; [lia|split; reflexivity]|].
      split; [intros a0 H; inversion H; reflexivity|].
      split; [intros [|[|i]] a0 b H1 H2; discriminate|].
      intros _. exists a. split; [reflexivity|]. split; [reflexivity|].
      split; [reflexivity|]. exact Hlast. }
    destruct rc as [o|e].
    + inversion Hrun; subst. apply Single; auto. discriminate.
    + destruct (Commands.is_conflict (code e) && Nat.ltb (attempt + 1) Commands.max_attempts)
        eqn:Hretry.
      * apply andb_true_iff in Hretry as [Hconf Hlt]. apply Nat.ltb_lt in Hlt.
        destruct (Commands.commit_loop interfere backend k (S attempt) s2 refname sig msg tree)
          as [[r' s3] tr'] eqn:Hl.
        inversion Hrun; subst r' s3 tr.
        destruct (IH (S attempt) s2 refname sig msg tree r s' tr') as (L1 & L2 & L3 & L4 & L5);
          [lia|exact Hl|].
        unfold Commands.max_attempts in *.
        destruct (L5 ltac:(lia)) as (z & Hz & Hr & Hs & Hz').
        destruct tr' as [|b tr'']; [discriminate|].
        split; [simpl in *; lia|].
        split.
        { intros [|i] a0 H; simpl in H.
          - inversion H; subst; simpl. split; [lia|split; reflexivity].
          - destruct (L2 i a0 H) as (? & ? & ?). split; [lia|split; assumption]. }
        split; [intros a0 H; inversion H; reflexivity|].
        split.
        { intros [|i] a0 b0 H1 H2; simpl in H1, H2.
          - inversion H1; inversion H2; subst. split.
            + exists e. split; [reflexivity|exact Hconf].
            + apply L3. reflexivity.
          - now apply (L4 i a0 b0). }
        intros _. exists z.
        simpl length in Hz |- *. rewrite Nat.sub_succ, Nat.sub_0_r.
        simpl in Hz. rewrite Nat.sub_0_r in Hz.
        split; [exact Hz|]. split; [exact Hr|]. split; [exact Hs|]. exact Hz'.
      * inversion Hrun; subst. apply Single; auto.
        intros e0 He0 Hc0. inversion He0; subst.
        rewrite Hc0 in Hretry. simpl in Hretry. apply Nat.ltb_ge in Hretry. exact Hretry.
Qed.

(** The library's [add_memo] as a whole: at most five attempts, each
    building its node on the head it has just read, each retry starting
    from the state the previous conflicting attempt left; when an attempt
    was made, the command's result is the last attempt's outcome, and a
    last attempt that lost a race is the fifth. *)
Lemma library_append_attempts
    (interfere : nat -> repo -> repo) (backend : nat -> option git_error)
    (s : repo) (category message : string) (stdin : stdin_stream)
    (o : outcome) (tr : list Commands.attempt_rec) :
  Commands.add_memo_traced interfere backend s category message stdin = (o, tr) ->
  length tr <= Commands.max_attempts /\
  (forall i a, nth_error tr i = Some a ->
     Commands.at_index a = i /\
     Commands.at_parent a = Commands.read_parent (Commands.at_read a) ("refs/memo/" ++ category) /\
     Commands.at_node_parents a = opt_list (Commands.at_parent a)) /\
  (forall i a b, nth_error tr i = Some a -> nth_error tr (S i) = Some b ->
     (exists e, Commands.at_outcome a = Err e /\ Commands.is_conflict (code e) = true) /\
     Commands.at_read b = Commands.at_after a) /\
  (forall a, nth_error tr (length tr - 1) = Some a ->
     res o = match Commands.at_outcome a with Ok _ => Ok tt | Err e => Err e end /\
     st o = Commands.at_after a /\
     (forall e, Commands.at_outcome a = Err e -> Commands.is_conflict (code e) = true ->
                Commands.at_index a = 4)).
Proof.
  unfold Commands.add_memo_traced.
  assert (Early : forall o0, (o0, @nil Commands.attempt_rec) = (o, tr) ->
    length tr <= Commands.max_attempts /\
    (forall i a, nth_error tr i = Some a ->
       Commands.at_index a = i /\
       Commands.at_parent a = Commands.read_parent (Commands.at_read a) ("refs/memo/" ++ category) /\
       Commands.at_node_parents a = opt_list (Commands.at_parent a)) /\
    (forall i a b, nth_error tr i = Some a -> nth_error tr (S i) = Some b ->
       (exists e, Commands.at_outcome a = Err e /\ Commands.is_conflict (code e) = true) /\
       Commands.at_read b = Commands.at_after a) /\
    (forall a, nth_error tr (length tr - 1) = Some a ->
       res o = match Commands.at_outcome a with Ok _ => Ok tt | Err e => Err e end /\
       st o = Commands.at_after a /\
       (forall e, Commands.at_outcome a = Err e -> Commands.is_conflict (code e) = true ->
                  Commands.at_index a = 4))).
  { intros o0 H; inversion H; subst. simpl.
    split; [unfold Commands.max_attempts; lia|].
    split; [intros [|i] a Ha; discriminate|].
    split; [intros [|i] a b Ha; discriminate|]. intros a Ha; discriminate. }
  destruct (Commands.validate_category category) as [[u|e]|p]; [|apply Early|apply Early].
  destruct (read_message message stdin) as [msg|e]; [|apply Early].
  destruct (match head_tree s with Some t => (s, t) | None => odb_write s (OTree "") end)
    as [s1 tree].
  destruct (Commands.make_signature s1) as [sig|e]; [|apply Early].
  destruct (Commands.commit_loop interfere backend Commands.max_attempts 0 s1
              ("refs/memo/" ++ category) sig msg tree) as [[r s'] tr'] eqn:Hl.
  destruct (commit_loop_attempts interfere backend Commands.max_attempts 0 s1
              ("refs/memo/" ++ category) sig msg tree r s' tr' eq_refl Hl)
    as (L1 & L2 & L3 & L4 & L5).
  destruct (L5 ltac:(unfold Commands.max_attempts; lia)) as (z & Hz & Hr & Hs & Hz').
  assert (Hout : forall o0, (match r with
          | Ok o1 => ({| res := Ok tt; st := s';
                         out := [Line ("Recorded memo " ++ o1 ++ " under " ++ "refs/memo/" ++ category)] |}, tr')
          | Err e => ({| res := Err e; st := s'; out := [] |}, tr')
          end) = (o0, tr) ->
      tr = tr' /\ res o0 = match r with Ok _ => Ok tt | Err e => Err e end /\ st o0 = s').
  { intros o0 H. destruct r; inversion H; subst; auto. }
  intros H. destruct (Hout o H) as (-> & Hres & Hst).
  split; [exact L1|]. split; [exact L2|]. split; [exact L4|].
  intros a Ha. rewrite Hz in Ha. inversion Ha; subst a.
  split; [now rewrite Hres, Hr|]. split; [now rewrite Hst, Hs|].
  intros e He Hc. specialize (Hz' e He Hc).
  assert (Hlt : length tr' <= 5) by exact L1.
  destruct (L2 (length tr' - 1) z Hz) as (Hi & _).
  unfold Commands.max_attempts in *. lia.
Qed.

Lemma assoc_find_set_same {A} (k : string) (v : A) (l : list (string * A)) :
  assoc_find k (assoc_set k v l) = Some v.
Proof.
  induction l as [|[k' v'] r IH]; simpl; [now rewrite String.eqb_refl|].
  destruct (String.eqb k k') eqn:E; simpl; [now rewrite String.eqb_refl|now rewrite E].
Qed.

Lemma assoc_find_set_other {A} (k k' : string) (v : A) (l : list (string * A)) :
  k <> k' -> assoc_find k (assoc_set k' v l) = assoc_find k l.
Proof.
  intros Hne. induction l as [|[k0 v0] r IH]; simpl.
  - apply String.eqb_neq in Hne. now rewrite Hne.
  - destruct (String.eqb k' k0) eqn:E; simpl.
    + apply String.eqb_eq in E; subst. apply String.eqb_neq in Hne. now rewrite Hne.
    + now rewrite IH.
Qed.

Lemma assoc_find_remove_same {A} (k : string) (l : list (string * A)) :
  assoc_find k (assoc_remove k l) = None.
Proof.
  unfold assoc_remove. induction l as [|[k0 v0] r IH]; simpl; [reflexivity|].
  destruct (String.eqb k k0) eqn:E; simpl; [exact IH|]. now rewrite E.
Qed.

Lemma split_slash_not_nil (c : string) : exists h t, split_slash c = h :: t.
Proof.
  induction c as [|x c [h [t IH]]]; simpl; [eauto|].
  rewrite IH. destruct (Ascii.eqb x "/"); eauto.
Qed.

(** Moving a valid memo reference name to the archive namespace keeps it
    valid: both names share every segment after the prefix. *)
Lemma archive_name_valid (c : string) :
  is_valid_name ("refs/archive/" ++ c) = is_valid_name ("refs/memo/" ++ c).
Proof.
  unfold is_valid_name.
  change (split_slash ("refs/archive/" ++ c)) with ("refs" :: "archive" :: split_slash c).
  change (split_slash ("refs/memo/" ++ c)) with ("refs" :: "memo" :: split_slash c).
  destruct (split_slash_not_nil c) as [h [t ->]].
  reflexivity.
Qed.

Lemma memo_archive_names_differ (c : string) : "refs/archive/" ++ c <> "refs/memo/" ++ c.
Proof. simpl. intros H. inversion H. Qed.

(** C3 (counterexample): archiving [todo] while [refs/archive/todo]
    already exists does not fail; the library and the binary both return
    [Ok] and replace the archived pointer with the live head. *)
Theorem archive_overwrites_existing_archive :
  let lib := Commands.archive_category no_interference no_backend_error rearchive_repo "todo" in
  let bin := Main.archive_category no_interference no_backend_error rearchive_repo "todo" in
  assoc_find "refs/archive/todo" (refs rearchive_repo) = Some todo_head /\
  res lib = Ok tt /\
  assoc_find "refs/archive/todo" (refs (st lib)) = assoc_find "refs/memo/todo" (refs rearchive_repo) /\
  assoc_find "refs/memo/todo" (refs rearchive_repo) <> Some todo_head /\
  res bin = Ok tt /\
  assoc_find "refs/archive/todo" (refs (st bin)) = assoc_find "refs/memo/todo" (refs rearchive_repo).
Proof. vm_compute. repeat split; try reflexivity. discriminate. Qed.

(** C3 (amended): for a valid category whose live pointer exists, when no
    other process acts and both loose reference files can be locked (no
    reference inside the folders [refs/memo/<category>/] and
    [refs/archive/<category>/], none at a folder of either path),
    archiving (library and binary) renames the pointer with overwrite
    enabled: it returns [Ok], [refs/archive/<category>] then holds the
    live head whether or not it existed before, and
    [refs/memo/<category>] is gone. *)
Theorem archive_moves_live_pointer (s : repo) (category : string) (h : oid) :
  Commands.validate_category category = Ok tt ->
  assoc_find ("refs/memo/" ++ category) (refs s) = Some h ->
  path_free s ("refs/memo/" ++ category) ->
  path_free s ("refs/archive/" ++ category) ->
  (forall o, o = Commands.archive_category no_interference no_backend_error s category
          \/ o = Main.archive_category no_interference no_backend_error s category ->
   res o = Ok tt /\
   assoc_find ("refs/archive/" ++ category) (refs (st o)) = Some h /\
   assoc_find ("refs/memo/" ++ category) (refs (st o)) = None /\
   out o = [Line ("Archived refs/memo/" ++ category ++ " to refs/archive/" ++ category)]).
Proof.
  intros Hv Hh Hsrc Hdst o Ho.
  destruct (validate_category_ok category Hv) as [Hn Hvalid].
  assert (Hfind : find_reference s ("refs/memo/" ++ category) = Ok ("refs/memo/" ++ category, h)).
  { unfold find_reference, refname_to_id. now rewrite Hn, Hvalid, Hh. }
  assert (Hren : reference_rename None None s ("refs/memo/" ++ category) ("refs/archive/" ++ category) true
      = (Ok tt, with_refs s (assoc_set ("refs/archive/" ++ category) h
                                       (assoc_remove ("refs/memo/" ++ category) (refs s))))).
  { unfold reference_rename.
    rewrite has_nul_archive, <- has_nul_memo, Hn, archive_name_valid, Hvalid. cbn [negb andb].
    rewrite Hh, (loose_lock_none _ _ Hsrc), (loose_lock_none _ _ (path_free_remove _ _ _ Hdst)).
    reflexivity. }
  assert (Same : Commands.archive_category no_interference no_backend_error s category
                 = Main.archive_category no_interference no_backend_error s category).
  { unfold Commands.archive_category, Main.archive_category. now rewrite Hv. }
  destruct Ho as [-> | ->]; [|rewrite <- Same];
  unfold Commands.archive_category; rewrite Hv, Hfind;
  unfold no_interference, no_backend_error; rewrite Hren; simpl;
  (split; [reflexivity|]); (split; [apply assoc_find_set_same|]);
  (split; [rewrite assoc_find_set_other by (apply not_eq_sym, memo_archive_names_differ);
           apply assoc_find_remove_same|reflexivity]).
Qed.



(** Archiving the one memo of [todo_repo] through the library. *)
Lemma archive_moves_live_pointer_witness :
  res (Commands.archive_category no_interference no_backend_error todo_repo "todo") = Ok tt.
Proof.
  destruct (archive_moves_live_pointer todo_repo "todo" todo_head)
    with (o := Commands.archive_category no_interference no_backend_error todo_repo "todo")
    as [Hok _].
  - vm_compute. reflexivity.
  - vm_compute. reflexivity.
  - apply path_free_iff. vm_compute. reflexivity.
  - apply path_free_iff. vm_compute. reflexivity.
  - left. reflexivity.
  - exact Hok.
Defined.

(** Listing a category that [todo_repo] does not have. *)
Lemma absent_pointer_reports_no_log_witness :
  Commands.list_memos todo_repo "done" false
    = {| res := Ok tt; st := todo_repo; out := [Line "No memos found for category done"] |}.
Proof.
  destruct (absent_pointer_reports_no_log no_interference no_backend_error todo_repo
              "done" "msg" false) as [H _].
  - vm_compute. reflexivity.
  - vm_compute. reflexivity.
  - exact H.
Defined.

(** * Appending without interference *)

Lemma string_length_app (a b : string) :
  String.length (a ++ b) = String.length a + String.length b.
Proof. induction a; simpl; auto. Qed.

Lemma parent_lines_longer (p : oid) (ps : list oid) :
  In p ps -> String.length p < String.length (parent_lines ps).
Proof.
  induction ps as [|q ps IH]; simpl; [tauto|].
  intros [<-|Hp]; rewrite string_length_app; simpl; [lia|].
  specialize (IH Hp). lia.
Qed.

Lemma commit_id_longer_than_parent (c : commit) (p : oid) :
  In p (c_parents c) -> String.length p < String.length (commit_id c).
Proof.
  intros Hp. apply parent_lines_longer in Hp.
  unfold commit_id, hash_object, serialize_commit. simpl.
  repeat (rewrite string_length_app; simpl). lia.
Qed.

Lemma commit_id_not_empty_tree (c : commit) : commit_id c <> empty_tree_id.
Proof. unfold commit_id, hash_object. simpl. discriminate. Qed.

Lemma make_signature_with_odb (s : repo) (d : list (oid * object)) :
  Commands.make_signature (with_odb s d) = Commands.make_signature s.
Proof. reflexivity. Qed.

Lemma find_commit_with_odb_cons (s : repo) (d : list (oid * object)) (k h : oid) (ob : object) :
  h <> k -> find_commit (with_odb s ((k, ob) :: d)) h = find_commit (with_odb s d) h.
Proof.
  intros Hne. unfold find_commit. simpl.
  apply String.eqb_neq in Hne. now rewrite Hne.
Qed.

Lemma with_odb_same (s : repo) : with_odb s (odb s) = s.
Proof. destruct s; reflexivity. Qed.

(** One append with no other process around, in the library and in the
    binary: the node built has the chosen tree, the pointer's commit as
    parent, the configured signature as author and committer and the
    message read; it is stored and the pointer moves to it. *)
Lemma add_memo_step (s : repo) (category message : string) (stdin : stdin_stream)
    (m : string) (sig : signature) :
  Commands.validate_category category = Ok tt ->
  read_message message stdin = Ok m ->
  has_nul m = false ->
  Commands.make_signature s = Ok sig ->
  head_is_commit s ("refs/memo/" ++ category) ->
  path_free s ("refs/memo/" ++ category) ->
  let refname := "refs/memo/" ++ category in
  let s0 := fst (add_tree s) in
  let node := {| c_tree := snd (add_tree s);
                 c_parents := opt_list (assoc_find refname (refs s));
                 c_author := sig; c_committer := sig;
                 c_message := m |} in
  let expected :=
    {| res := Ok tt;
       st := ref_set (with_odb s0 ((commit_id node, OCommit node) :: odb s0))
                     refname (commit_id node);
       out := [Line ("Recorded memo " ++ commit_id node ++ " under " ++ refname)] |} in
  Commands.add_memo no_interference no_backend_error s category message stdin = expected /\
  Main.add_memo no_interference no_backend_error s category message stdin = expected.
Proof.
  intros Hv Hr Hm Hsig Hhead Hfree refname s0 node expected.
  destruct (validate_category_ok category Hv) as [Hn Hvalid].
  fold refname in Hhead, Hn, Hvalid, Hfree.
  assert (Hs0 : s0 = s \/ s0 = with_odb s ((empty_tree_id, OTree "") :: odb s)).
  { unfold s0, add_tree. destruct (head_tree s); [now left|now right]. }
  assert (Hrefs : refs s0 = refs s) by (destruct Hs0 as [-> | ->]; reflexivity).
  assert (Hsig0 : Commands.make_signature s0 = Ok sig).
  { destruct Hs0 as [-> | ->]; [exact Hsig|now rewrite make_signature_with_odb]. }
  assert (Hpar : Commands.read_parent s0 refname = assoc_find refname (refs s)).
  { unfold Commands.read_parent, refname_to_id. rewrite Hn, Hvalid, Hrefs. simpl.
    unfold head_is_commit in Hhead.
    destruct (assoc_find refname (refs s)) as [h|]; [|reflexivity].
    destruct Hhead as [c [Hc Hh]].
    assert (Hc0 : find_commit s0 h = Ok c).
    { destruct Hs0 as [-> | ->]; [exact Hc|].
      rewrite find_commit_with_odb_cons, with_odb_same; [exact Hc|].
      rewrite Hh. apply commit_id_not_empty_tree. }
    now rewrite Hc0. }
  assert (Hcommit : repo_commit None s0 refname sig sig m
                      (snd (add_tree s)) (opt_list (assoc_find refname (refs s)))
                    = (Ok (commit_id node),
                       ref_set (with_odb s0 ((commit_id node, OCommit node) :: odb s0))
                               refname (commit_id node))).
  { unfold repo_commit. rewrite Hn, Hm, Hvalid.
    assert (Hl : loose_lock s0 refname = None).
    { apply loose_lock_none. intros kv Hin. apply Hfree. now rewrite <- Hrefs. }
    rewrite Hrefs. simpl. unfold odb_write. rewrite loose_lock_with_odb, Hl.
    destruct (assoc_find refname (refs s)) as [h|]; simpl;
      [rewrite String.eqb_refl|]; reflexivity. }
  assert (Hsplit : add_tree s = (s0, snd (add_tree s))) by (unfold s0; now destruct (add_tree s)).
  split.
  - unfold Commands.add_memo, Commands.add_memo_traced. rewrite Hv, Hr.
    fold (add_tree s). rewrite Hsplit.
    rewrite Hsig0. fold refname. unfold Commands.max_attempts. simpl.
    rewrite Hpar. unfold no_interference, no_backend_error. rewrite Hcommit. reflexivity.
  - unfold Main.add_memo. rewrite Hr.
    fold (add_tree s). rewrite Hsplit.
    change (match cfg_name s0 with
            | Some name => signature_now s0 name
                (if is_empty (str_trim match cfg_email s0 with Some e => e | None => EmptyString end)
                 then "none" else match cfg_email s0 with Some e => e | None => EmptyString end)
            | None => Err Commands.missing_name end)
      with (Commands.make_signature s0).
    rewrite Hsig0. fold refname. rewrite Hpar.
    unfold no_interference, no_backend_error. rewrite Hcommit. reflexivity.
Qed.

Lemma add_tree_refs (s : repo) : refs (fst (add_tree s)) = refs s.
Proof. unfold add_tree. destruct (head_tree s); reflexivity. Qed.

Lemma add_tree_signature (s : repo) :
  Commands.make_signature (fst (add_tree s)) = Commands.make_signature s.
Proof. unfold add_tree. destruct (head_tree s); reflexivity. Qed.

Lemma add_tree_split (s : repo) : add_tree s = (fst (add_tree s), snd (add_tree s)).
Proof. now destruct (add_tree s). Qed.






(** * Chains of appended nodes *)

Lemma last_opt_snoc (prev : option oid) (xs : list oid) (o : oid) :
  last_opt prev (xs ++ [o]) = Some o.
Proof. revert prev. induction xs as [|x xs IH]; intros prev; simpl; auto. Qed.

Lemma last_opt_some (y : oid) (ys : list oid) : exists h, last_opt (Some y) ys = Some h.
Proof. revert y. induction ys as [|z ys IH]; intros y; simpl; eauto. Qed.

Lemma last_opt_In (prev : option oid) (xs : list oid) (h : oid) :
  last_opt prev xs = Some h -> prev = Some h \/ In h xs.
Proof.
  revert prev. induction xs as [|x xs IH]; intros prev H; simpl in *; auto.
  destruct (IH _ H) as [E|E]; [inversion E; auto|auto].
Qed.

Lemma last_opt_none (xs : list oid) : last_opt None xs = None -> xs = [].
Proof.
  destruct xs as [|x xs]; simpl; auto.
  destruct (last_opt_some x xs) as [h ->]. discriminate.
Qed.

Lemma linked_length (s : repo) (prev : option oid) (xs : list oid) (qs : list string) :
  linked s prev xs qs -> length xs = length qs.
Proof.
  revert prev qs. induction xs as [|x xs IH]; intros prev [|q qs] H; simpl in *;
    try contradiction; auto.
  destruct H as [_ H]. f_equal. eauto.
Qed.

Lemma linked_snoc (s : repo) (prev : option oid) (xs : list oid) (qs : list string)
    (o : oid) (p : string) :
  linked s prev xs qs -> chain_node s (last_opt prev xs) o p ->
  linked s prev (xs ++ [o]) (qs ++ [p]).
Proof.
  revert prev qs. induction xs as [|x xs IH]; intros prev [|q qs] H Hn; simpl in *;
    try contradiction; auto.
  destruct H as [Hx H]. split; auto.
Qed.

Lemma linked_snoc_inv (s : repo) (prev : option oid) (xs : list oid) (o : oid)
    (rs : list string) :
  linked s prev (xs ++ [o]) rs ->
  exists qs p, rs = (qs ++ [p])%list /\ linked s prev xs qs /\ chain_node s (last_opt prev xs) o p.
Proof.
  revert prev rs. induction xs as [|x xs IH]; intros prev [|r rs] H; simpl in *;
    try contradiction.
  - destruct H as [Hn H]. destruct rs; [|contradiction]. exists [], r. simpl. auto.
  - destruct H as [Hx H]. destruct (IH _ _ H) as (qs & p & -> & Hl & Hn).
    exists (r :: qs), p. simpl. auto.
Qed.

Lemma linked_mono (s s' : repo) (prev : option oid) (xs : list oid) (qs : list string) :
  (forall x, In x xs -> find_commit s' x = find_commit s x) ->
  linked s prev xs qs -> linked s' prev xs qs.
Proof.
  revert prev qs. induction xs as [|x xs IH]; intros prev [|q qs] Hf H; simpl in *;
    try contradiction; auto.
  destruct H as [[c (Hc & Hrest)] H]. split.
  - exists c. rewrite Hf by auto. auto.
  - apply IH; auto.
Qed.

Lemma linked_node (s : repo) (prev : option oid) (xs : list oid) (qs : list string) (x : oid) :
  linked s prev xs qs -> In x xs -> exists c, find_commit s x = Ok c /\ x = commit_id c.
Proof.
  revert prev qs. induction xs as [|y xs IH]; intros prev [|q qs] H Hx; simpl in *;
    try contradiction.
  destruct H as [[c (Hc & Hy & _)] H]. destruct Hx as [<-|Hx]; eauto.
Qed.

(** Along a chain ids get longer: a node's id contains its parent's. *)
Lemma linked_longer (s : repo) (prev : option oid) (xs : list oid) (qs : list string) :
  linked s prev xs qs ->
  forall x p, In x xs -> prev = Some p -> String.length p < String.length x.
Proof.
  revert prev qs. induction xs as [|y xs IH]; intros prev [|q qs] H x p Hx Hp; simpl in *;
    try contradiction.
  destruct H as [[c (_ & Hy & _ & Hpar)] H].
  assert (Hpy : String.length p < String.length y).
  { rewrite Hy. apply commit_id_longer_than_parent. rewrite Hpar, Hp. simpl. auto. }
  destruct Hx as [<-|Hx]; [exact Hpy|].
  specialize (IH _ _ H x y Hx eq_refl). lia.
Qed.

Lemma linked_le_last (s : repo) (prev : option oid) (xs : list oid) (qs : list string) :
  linked s prev xs qs ->
  forall x h, In x xs -> last_opt prev xs = Some h -> String.length x <= String.length h.
Proof.
  revert prev qs. induction xs as [|y xs IH]; intros prev [|q qs] H x h Hx Hh; simpl in *;
    try contradiction.
  destruct H as [Hy H].
  destruct Hx as [<-|Hx]; [|eapply IH; eauto].
  destruct (last_opt_In _ _ _ Hh) as [E|E].
  - inversion E. lia.
  - pose proof (linked_longer _ _ _ _ H h y E eq_refl). lia.
Qed.

(** The revision walk from the last node of a chain started at the root
    visits the whole chain, newest first. *)
Lemma walk_linked (s : repo) (xs : list oid) :
  forall qs h fuel, linked s None xs qs -> last_opt None xs = Some h -> length xs <= fuel ->
  walk fuel s h = Ok (rev xs).
Proof.
  induction xs as [|o xs IH] using rev_ind; intros rs h fuel H Hh Hf.
  - discriminate.
  - rewrite last_opt_snoc in Hh. inversion Hh; subst h.
    destruct (linked_snoc_inv _ _ _ _ _ H) as (qs & p & -> & Hl & [c (Hc & _ & _ & Hpar)]).
    rewrite length_app in Hf. simpl in Hf.
    destruct fuel as [|f]; [lia|]. simpl. rewrite Hc, Hpar, rev_app_distr. simpl.
    destruct (last_opt None xs) as [h'|] eqn:Hlast.
    + simpl. rewrite (IH qs h' f Hl eq_refl) by lia. reflexivity.
    + apply last_opt_none in Hlast. subst. reflexivity.
Qed.

Lemma memo_entries_linked (s : repo) (prev : option oid) (xs : list oid) (qs : list string) :
  linked s prev xs qs ->
  Commands.memo_entries s xs = (map (fun op => (fst op, message_summary (snd op))) (combine xs qs), None).
Proof.
  revert prev qs. induction xs as [|x xs IH]; intros prev [|q qs] H; simpl in *;
    try contradiction; auto.
  destruct H as [[c (Hc & _ & Hm & _)] H]. rewrite Hc, (IH _ _ H).
  unfold summary. rewrite Hm. reflexivity.
Qed.

Lemma find_commit_odb (s s' : repo) (o : oid) :
  odb s' = odb s -> find_commit s' o = find_commit s o.
Proof. intros E. unfold find_commit. now rewrite E. Qed.

(** A run of appends by a single writer extends the chain by one node per
    payload, each one printed as recorded. *)
Lemma append_all_extends (category : string) (sig : signature) :
  Commands.validate_category category = Ok tt ->
  forall ps s xs qs,
  Commands.make_signature s = Ok sig ->
  Forall (fun p => p <> "-" /\ has_nul p = false) ps ->
  path_free s ("refs/memo/" ++ category) ->
  linked s None xs qs ->
  assoc_find ("refs/memo/" ++ category) (refs s) = last_opt None xs ->
  length xs <= length (odb s) ->
  let (sn, outs) := append_all s category ps in
  exists ys,
    length ys = length ps /\
    linked sn None (xs ++ ys) (qs ++ ps) /\
    assoc_find ("refs/memo/" ++ category) (refs sn) = last_opt None (xs ++ ys) /\
    length (xs ++ ys) <= length (odb sn) /\
    map res outs = map (fun _ => Returned (Ok tt)) ys /\
    map out outs = map (fun y => [Line ("Recorded memo " ++ y ++ " under refs/memo/" ++ category)]) ys.
Proof.
  intros Hv ps. induction ps as [|p ps IH]; intros s xs qs Hsig Hps Hfree Hl Hh Hlen.
  - exists []. rewrite !app_nil_r. simpl. repeat split; auto.
  - inversion Hps as [|p' ps' [Hp Hpn] Hps']; subst.
    set (refname := "refs/memo/" ++ category) in *.
    assert (Hhead : head_is_commit s refname).
    { unfold head_is_commit. rewrite Hh. destruct (last_opt None xs) as [h|] eqn:E; [|exact I].
      destruct (last_opt_In _ _ _ E) as [E'|E']; [discriminate|].
      eapply linked_node; eauto. }
    destruct (add_memo_step s category p "" p sig Hv (read_message_plain p "" Hp) Hpn Hsig
                Hhead Hfree) as [Hstep _].
    simpl. rewrite Hstep. fold refname.
    set (node := {| c_tree := snd (add_tree s);
                    c_parents := opt_list (assoc_find refname (refs s));
                    c_author := sig; c_committer := sig; c_message := p |}).
    set (s0 := fst (add_tree s)).
    set (s1 := ref_set (with_odb s0 ((commit_id node, OCommit node) :: odb s0))
                       refname (commit_id node)).
    simpl.
    assert (Hodb0 : odb s0 = odb s \/ odb s0 = (empty_tree_id, OTree "") :: odb s).
    { unfold s0, add_tree. destruct (head_tree s); [now left|now right]. }
    assert (Hodb1 : odb s1 = (commit_id node, OCommit node) :: odb s0) by reflexivity.
    assert (Hold : forall x, In x xs -> find_commit s1 x = find_commit s x).
    { intros x Hx.
      destruct (linked_node _ _ _ _ _ Hl Hx) as [c (_ & Hxc)].
      assert (Hne : x <> commit_id node).
      { intros E.
        destruct (last_opt None xs) as [h|] eqn:Hlast.
        - pose proof (linked_le_last _ _ _ _ Hl x h Hx Hlast) as L1.
          pose proof (commit_id_longer_than_parent node h) as L2.
          specialize (L2 ltac:(unfold node; simpl; rewrite Hh; left; reflexivity)).
          rewrite <- E in L2. lia.
        - apply last_opt_none in Hlast. subst. destruct Hx. }
      unfold find_commit. rewrite Hodb1. simpl.
      apply String.eqb_neq in Hne. rewrite Hne.
      destruct Hodb0 as [-> | ->]; [reflexivity|]. simpl.
      assert (Hnt : x <> empty_tree_id) by (rewrite Hxc; apply commit_id_not_empty_tree).
      apply String.eqb_neq in Hnt. now rewrite Hnt. }
    assert (Hl1 : linked s1 None (xs ++ [commit_id node]) (qs ++ [p])).
    { apply linked_snoc.
      - apply (linked_mono s); auto.
      - exists node. split; [|split; [reflexivity|split]].
        + unfold find_commit. rewrite Hodb1. simpl. now rewrite String.eqb_refl.
        + reflexivity.
        + unfold node. simpl. now rewrite Hh. }
    assert (Hsig1 : Commands.make_signature s1 = Ok sig).
    { unfold s1, s0. rewrite <- add_tree_signature in Hsig. exact Hsig. }
    assert (Hh1 : assoc_find refname (refs s1) = last_opt None (xs ++ [commit_id node])).
    { rewrite last_opt_snoc. unfold s1. simpl. apply assoc_find_set_same. }
    assert (Hlen1 : length (xs ++ [commit_id node]) <= length (odb s1)).
    { rewrite Hodb1, length_app. simpl.
      destruct Hodb0 as [-> | ->]; simpl; lia. }
    assert (Hfree1 : path_free s1 refname).
    { apply path_free_set_same. intros kv Hin. apply Hfree. unfold s0 in Hin.
      simpl in Hin. now rewrite add_tree_refs in Hin. }
    specialize (IH s1 (xs ++ [commit_id node])%list (qs ++ [p])%list Hsig1 Hps' Hfree1 Hl1 Hh1
                   Hlen1).
    destruct (append_all s1 category ps) as [sn outs].
    destruct IH as (ys & Y1 & Y2 & Y3 & Y4 & Y5 & Y6).
    exists (commit_id node :: ys).
    rewrite <- (app_assoc qs [p] ps), <- app_assoc in Y2. rewrite <- app_assoc in Y3, Y4.
    simpl in *. repeat split; auto.
    + now rewrite Y5.
    + now rewrite Y6.
Qed.



(** * Reference listings after the commands *)

Lemma strip_prefix_app (p c : string) : strip_prefix p (p ++ c) = Some c.
Proof. induction p as [|a p IH]; simpl; [reflexivity|]. now rewrite Ascii.eqb_refl. Qed.

Lemma strip_prefix_some (p n c : string) : strip_prefix p n = Some c -> n = p ++ c.
Proof.
  revert n. induction p as [|a p IH]; intros [|b n] H; simpl in *; try congruence.
  destruct (Ascii.eqb a b) eqn:E; [|discriminate].
  apply Ascii.eqb_eq in E. subst. f_equal. auto.
Qed.

Lemma references_glob_In (s : repo) (p n : string) :
  In n (references_glob s p) <-> exists v c, In (n, v) (refs s) /\ n = p ++ c.
Proof.
  unfold references_glob. rewrite in_map_iff. split.
  - intros [[k v] [Hk Hin]]. simpl in Hk. subst k. apply filter_In in Hin as [Hin Hf].
    simpl in Hf. destruct (strip_prefix p n) as [c|] eqn:E; [|discriminate].
    exists v, c. split; [exact Hin|]. now apply strip_prefix_some.
  - intros [v [c [Hin ->]]]. exists (p ++ c, v). split; [reflexivity|].
    apply filter_In. split; [exact Hin|]. simpl. now rewrite strip_prefix_app.
Qed.

Lemma category_set_In (s : repo) (p c : string) :
  In c (Commands.category_set s p) <-> exists v, In (p ++ c, v) (refs s).
Proof.
  destruct (category_set_spec s p) as [_ H]. rewrite H. split.
  - intros [n [Hn Hs]]. apply strip_prefix_some in Hs. subst n.
    apply references_glob_In in Hn as [v [c' [Hin _]]]. eauto.
  - intros [v Hin]. exists (p ++ c). split; [|apply strip_prefix_app].
    apply references_glob_In. eauto.
Qed.

Lemma In_Line_map (c : string) (l : list string) : In (Line c) (map Line l) <-> In c l.
Proof.
  rewrite in_map_iff. split; [intros [x [Hx Hin]]; inversion Hx; now subst|eauto].
Qed.

Lemma In_assoc_set {A} (k : string) (v : A) (l : list (string * A)) (kv : string * A) :
  In kv (assoc_set k v l) -> kv = (k, v) \/ In kv l.
Proof.
  induction l as [|[k' v'] r IH]; simpl; [intuition|].
  destruct (String.eqb k k'); simpl; intuition.
Qed.

Lemma In_assoc_set_same {A} (k : string) (v : A) (l : list (string * A)) :
  In (k, v) (assoc_set k v l).
Proof.
  induction l as [|[k' v'] r IH]; simpl; [auto|].
  destruct (String.eqb k k'); simpl; auto.
Qed.

Lemma In_assoc_remove {A} (k : string) (l : list (string * A)) (kv : string * A) :
  In kv (assoc_remove k l) <-> In kv l /\ fst kv <> k.
Proof.
  unfold assoc_remove. rewrite filter_In. destruct kv as [k' v]. simpl.
  destruct (String.eqb k k') eqn:E.
  - apply String.eqb_eq in E. subst. intuition discriminate.
  - apply String.eqb_neq in E. intuition.
Qed.

Lemma assoc_find_remove_other {A} (k k' : string) (l : list (string * A)) :
  k <> k' -> assoc_find k (assoc_remove k' l) = assoc_find k l.
Proof.
  intros Hne. unfold assoc_remove. induction l as [|[k0 v0] r IH]; simpl; [reflexivity|].
  destruct (String.eqb k' k0) eqn:E; simpl.
  - apply String.eqb_eq in E. subst. apply String.eqb_neq in Hne. now rewrite Hne.
  - now rewrite IH.
Qed.

Lemma valid_category_name (category : string) :
  Commands.validate_category category = Ok tt ->
  is_valid_name ("refs/memo/" ++ category) = true.
Proof. intros Hv. apply (validate_category_ok _ Hv). Qed.

(** Listing a category whose pointer is missing prints that it has no memos. *)
Lemma list_memos_absent (s : repo) (category : string) (json_output : bool) :
  Commands.validate_category category = Ok tt ->
  assoc_find ("refs/memo/" ++ category) (refs s) = None ->
  out (Commands.list_memos s category json_output)
    = [Line ("No memos found for category " ++ category)].
Proof.
  intros Hv Habs. unfold Commands.list_memos, refname_to_id.
  rewrite Hv, (proj1 (validate_category_ok _ Hv)), (valid_category_name _ Hv), Habs.
  reflexivity.
Qed.

(** X: removing a category (library and binary) whose pointer exists,
    with no other process acting and the pointer's loose file lockable,
    deletes that pointer and nothing else: every other reference and the
    object database are kept, ["Removed refs/memo/<category>"] is
    printed; afterwards the category is no longer listed and listing its
    memos reports that there are none.  If another process moves the
    pointer between the lookup and the delete, the delete fails with
    [Modified] and the pointer is kept. *)
Theorem remove_deletes_only_pointer (s : repo) (category : string) (h : oid) :
  Commands.validate_category category = Ok tt ->
  assoc_find ("refs/memo/" ++ category) (refs s) = Some h ->
  (path_free s ("refs/memo/" ++ category) ->
   forall o, o = Commands.remove_memos no_interference no_backend_error s category \/
             o = Main.remove_memos no_interference no_backend_error s category ->
   res o = Ok tt /\
   out o = [Line ("Removed refs/memo/" ++ category)] /\
   odb (st o) = odb s /\
   assoc_find ("refs/memo/" ++ category) (refs (st o)) = None /\
   (forall k, k <> "refs/memo/" ++ category -> assoc_find k (refs (st o)) = assoc_find k (refs s)) /\
   ~ In (Line category) (out (Commands.list_categories (st o) false)) /\
   out (Commands.list_memos (st o) category false)
     = [Line ("No memos found for category " ++ category)]) /\
  (forall interfere backend h',
   let s1 := interfere 0 s in
   backend 0 = None -> path_free s1 ("refs/memo/" ++ category) ->
   assoc_find ("refs/memo/" ++ category) (refs s1) = Some h' -> h' <> h ->
   forall o, o = Commands.remove_memos interfere backend s category \/
             o = Main.remove_memos interfere backend s category ->
   res o = Err {| code := Modified; message := "old reference value does not match" |} /\
   st o = s1 /\ out o = []).
Proof.
  intros Hv Hh.
  assert (Hfind : find_reference s ("refs/memo/" ++ category) = Ok ("refs/memo/" ++ category, h)).
  { unfold find_reference, refname_to_id.
    now rewrite (proj1 (validate_category_ok _ Hv)), (valid_category_name _ Hv), Hh. }
  split.
  - intros Hfree o Ho.
    assert (Ho' : o = {| res := Ok tt;
                         st := with_refs s (assoc_remove ("refs/memo/" ++ category) (refs s));
                         out := [Line ("Removed refs/memo/" ++ category)] |}).
    { destruct Ho as [-> | ->];
        [unfold Commands.remove_memos; rewrite Hv | unfold Main.remove_memos];
        rewrite Hfind; unfold no_interference, no_backend_error, reference_delete;
        rewrite (loose_lock_none _ _ Hfree), Hh, String.eqb_refl; reflexivity. }
    subst o. simpl.
    split; [reflexivity|]. split; [reflexivity|]. split; [reflexivity|].
    split; [apply assoc_find_remove_same|].
    split; [intros k Hk; now apply assoc_find_remove_other|].
    split.
    + unfold Commands.list_categories, Commands.print_categories. simpl.
      rewrite In_Line_map, category_set_In. intros [v Hin].
      apply In_assoc_remove in Hin as [_ Hne]. apply Hne. reflexivity.
    + apply list_memos_absent; [exact Hv|]. apply assoc_find_remove_same.
  - intros interfere backend h' s1 Hb Hfree Hh' Hne o Ho.
    assert (Hdel : reference_delete (backend 0) s1 ("refs/memo/" ++ category) h
                   = (Err {| code := Modified; message := "old reference value does not match" |}, s1)).
    { unfold reference_delete. rewrite Hb, (loose_lock_none _ _ Hfree), Hh'.
      apply String.eqb_neq in Hne. now rewrite Hne. }
    destruct Ho as [-> | ->];
      [unfold Commands.remove_memos; rewrite Hv | unfold Main.remove_memos];
      rewrite Hfind; fold s1; rewrite Hdel; repeat split.
Qed.

(** Removing the [todo] category of [todo_repo]. *)
Lemma remove_deletes_only_pointer_witness :
  res (Commands.remove_memos no_interference no_backend_error todo_repo "todo") = Ok tt.
Proof.
  destruct (remove_deletes_only_pointer todo_repo "todo" todo_head) as [H _].
  - vm_compute. reflexivity.
  - vm_compute. reflexivity.
  - destruct (H ltac:(apply path_free_iff; vm_compute; reflexivity)
                (Commands.remove_memos no_interference no_backend_error todo_repo "todo")
                (or_introl eq_refl)) as [R _].
    exact R.
Defined.

(** The references after archiving a valid category with a live pointer. *)
Lemma archive_refs (s : repo) (category : string) (h : oid) :
  Commands.validate_category category = Ok tt ->
  assoc_find ("refs/memo/" ++ category) (refs s) = Some h ->
  path_free s ("refs/memo/" ++ category) ->
  path_free s ("refs/archive/" ++ category) ->
  forall o, o = Commands.archive_category no_interference no_backend_error s category \/
            o = Main.archive_category no_interference no_backend_error s category ->
  res o = Ok tt /\
  st o = with_refs s (assoc_set ("refs/archive/" ++ category) h
                                (assoc_remove ("refs/memo/" ++ category) (refs s))).
Proof.
  intros Hv Hh Hsrc Hdst o Ho.
  destruct (validate_category_ok category Hv) as [Hn Hvalid].
  assert (Hfind : find_reference s ("refs/memo/" ++ category) = Ok ("refs/memo/" ++ category, h)).
  { unfold find_reference, refname_to_id. now rewrite Hn, Hvalid, Hh. }
  assert (Hren : reference_rename None None s ("refs/memo/" ++ category) ("refs/archive/" ++ category) true
      = (Ok tt, with_refs s (assoc_set ("refs/archive/" ++ category) h
                                       (assoc_remove ("refs/memo/" ++ category) (refs s))))).
  { unfold reference_rename.
    rewrite has_nul_archive, <- has_nul_memo, Hn, archive_name_valid, Hvalid. cbn [negb andb].
    rewrite Hh, (loose_lock_none _ _ Hsrc), (loose_lock_none _ _ (path_free_remove _ _ _ Hdst)).
    reflexivity. }
  destruct Ho as [-> | ->];
    [unfold Commands.archive_category; rewrite Hv | unfold Main.archive_category];
    rewrite Hfind; unfold no_interference, no_backend_error; rewrite Hren; split; reflexivity.
Qed.

(** X: after archiving (library or binary) a valid category whose pointer
    exists, with no other process acting and both loose reference files
    lockable (no reference inside the folders [refs/memo/<category>/] and
    [refs/archive/<category>/], none at a folder of either path), the
    archived categories list it, the live categories no longer do,
    listing its memos reports that there are none, and no object is
    touched. *)
Theorem archive_moves_category_between_listings (s : repo) (category : string) (h : oid) :
  Commands.validate_category category = Ok tt ->
  assoc_find ("refs/memo/" ++ category) (refs s) = Some h ->
  path_free s ("refs/memo/" ++ category) ->
  path_free s ("refs/archive/" ++ category) ->
  forall o, o = Commands.archive_category no_interference no_backend_error s category \/
            o = Main.archive_category no_interference no_backend_error s category ->
  In (Line category) (out (Commands.list_archive_categories (st o) false)) /\
  ~ In (Line category) (out (Commands.list_categories (st o) false)) /\
  out (Commands.list_memos (st o) category false)
    = [Line ("No memos found for category " ++ category)] /\
  odb (st o) = odb s.
Proof.
  intros Hv Hh Hsrc Hdst o Ho.
  destruct (archive_refs s category h Hv Hh Hsrc Hdst o Ho) as [_ Hst].
  rewrite Hst.
  unfold Commands.list_archive_categories, Commands.list_categories,
    Commands.print_categories. simpl. rewrite !In_Line_map, !category_set_In. simpl.
  split; [exists h; apply In_assoc_set_same|].
  split; [|split; [|reflexivity]].
  - intros [v Hin]. apply In_assoc_set in Hin as [E|Hin].
    + inversion E.
    + apply In_assoc_remove in Hin as [_ Hne]. apply Hne. reflexivity.
  - apply list_memos_absent; [exact Hv|]. simpl.
    rewrite assoc_find_set_other by apply not_eq_sym, memo_archive_names_differ.
    apply assoc_find_remove_same.
Qed.

(** Archiving the [todo] category of [todo_repo]. *)
Lemma archive_moves_category_between_listings_witness :
  In (Line "todo") (out (Commands.list_archive_categories
     (st (Commands.archive_category no_interference no_backend_error todo_repo "todo")) false)).
Proof.
  destruct (archive_moves_category_between_listings todo_repo "todo" todo_head)
    with (o := Commands.archive_category no_interference no_backend_error todo_repo "todo")
    as [H _].
  - vm_compute. reflexivity.
  - vm_compute. reflexivity.
  - apply path_free_iff. vm_compute. reflexivity.
  - apply path_free_iff. vm_compute. reflexivity.
  - left. reflexivity.
  - exact H.
Defined.



(** Rejecting the name ["bad category"] in [todo_repo]. *)
Lemma library_rejects_invalid_category_witness :
  Commands.remove_memos no_interference no_backend_error todo_repo "bad category"
    = {| res := Err (from_str "Invalid category name: bad category"); st := todo_repo; out := [] |}.
Proof.
  destruct (library_rejects_invalid_category no_interference no_backend_error todo_repo
              "bad category" "msg" "" false) as [HE _].
  destruct (HE (from_str "Invalid category name: bad category")) as (_ & _ & _ & _ & _ & H).
  - vm_compute. reflexivity.
  - exact H.
Defined.

(** * Category names *)

Lemma split_slash_char (c : ascii) (s : string) :
  In c (list_ascii_of_string s) -> c <> "/"%char ->
  exists seg, In seg (split_slash s) /\ In c (list_ascii_of_string seg).
Proof.
  induction s as [|d r IH]; simpl; [tauto|]. intros Hin Hc.
  destruct (Ascii.eqb d "/") eqn:Ed.
  - apply Ascii.eqb_eq in Ed. subst d. destruct Hin as [E|Hin]; [congruence|].
    destruct (IH Hin Hc) as [seg [H1 H2]]. exists seg. simpl. auto.
  - destruct (split_slash r) as [|h t] eqn:Er.
    + exists (String d EmptyString). simpl. split; [auto|].
      destruct Hin as [E|Hin]; [auto|]. destruct (IH Hin Hc) as [seg [[] _]].
    + destruct Hin as [E|Hin].
      * exists (String d h). simpl. auto.
      * destruct (IH Hin Hc) as [seg [[E1|H1] H2]].
        -- subst seg. exists (String d h). simpl. auto.
        -- exists seg. simpl. auto.
Qed.

Lemma seg_chars_ok_chars (prev : ascii) (l : list ascii) :
  seg_chars_ok prev l = true -> forall x, In x l -> is_valid_ref_char x = true.
Proof.
  revert prev. induction l as [|c r IH]; intros prev H x Hx; simpl in *; [tauto|].
  apply andb_prop in H as [H Hr]. apply andb_prop in H as [H _].
  apply andb_prop in H as [H _].
  destruct Hx as [<-|Hx]; [exact H|]. eapply IH; eauto.
Qed.

Lemma segment_valid_chars (seg : string) :
  segment_valid seg = true -> forall x, In x (list_ascii_of_string seg) -> is_valid_ref_char x = true.
Proof.
  destruct seg as [|c r]; simpl; [discriminate|]. intros H.
  apply andb_prop in H as [H _]. apply andb_prop in H as [_ H].
  apply (seg_chars_ok_chars "000" (c :: list_ascii_of_string r) H).
Qed.

Lemma memo_name_segments (name : string) :
  is_valid_name ("refs/memo/" ++ name) = refname_segments_ok ("refs" :: "memo" :: split_slash name).
Proof. reflexivity. Qed.

(** X: a category name free of NUL bytes and containing a character that
    reference names do not allow (a control character, a space, or one of
    [~ ^ : \ ? [ *]) is rejected by [validate_category], with the message
    naming it.  (A NUL byte makes it panic instead.) *)
Theorem validate_rejects_bad_char (name : string) (c : ascii) :
  In c (list_ascii_of_string name) -> is_valid_ref_char c = false -> has_nul name = false ->
  Commands.validate_category name = Err (from_str ("Invalid category name: " ++ name)).
Proof.
  intros Hin Hc Hnul. unfold Commands.validate_category. cbv zeta.
  rewrite has_nul_memo, Hnul.
  assert (Hslash : c <> "/"%char) by (intros ->; discriminate).
  destruct (split_slash_char c name Hin Hslash) as [seg [Hseg Hcseg]].
  assert (Hbad : segment_valid seg = false).
  { destruct (segment_valid seg) eqn:E; [|reflexivity].
    rewrite (segment_valid_chars seg E c Hcseg) in Hc. discriminate. }
  rewrite memo_name_segments. unfold refname_segments_ok.
  assert (Hf : forallb segment_valid ("refs" :: "memo" :: split_slash name) = false).
  { apply Bool.not_true_is_false. intros Hall. rewrite forallb_forall in Hall.
    rewrite Hall in Hbad; [discriminate|]. simpl. auto. }
  now rewrite Hf.
Qed.

(** The name ["bad category"]. *)
Lemma validate_rejects_bad_char_witness :
  Commands.validate_category "bad category"
    = Err (from_str "Invalid category name: bad category").
Proof.
  apply (validate_rejects_bad_char "bad category" " "); [simpl; tauto|reflexivity|reflexivity].
Defined.

Lemma plain_char_not_nul (c : ascii) : plain_char c = true -> Ascii.eqb "000" c = false.
Proof. destruct c as [[] [] [] [] [] [] [] []]; vm_compute; congruence. Qed.

Lemma plain_no_nul (s : string) :
  forallb plain_char (list_ascii_of_string s) = true -> has_nul s = false.
Proof.
  unfold has_nul. induction s as [|c r IH]; [reflexivity|].
  cbn [contains_char list_ascii_of_string forallb]. intros H.
  apply andb_prop in H as [Hc Hr]. rewrite (plain_char_not_nul c Hc), (IH Hr). reflexivity.
Qed.

Lemma plain_char_valid (c : ascii) : plain_char c = true -> is_valid_ref_char c = true.
Proof. destruct c as [[] [] [] [] [] [] [] []]; vm_compute; congruence. Qed.

Lemma plain_char_not_dot (c : ascii) : plain_char c = true -> Ascii.eqb c "." = false.
Proof. destruct c as [[] [] [] [] [] [] [] []]; vm_compute; congruence. Qed.

Lemma plain_char_not_slash (c : ascii) : plain_char c = true -> Ascii.eqb c "/" = false.
Proof. destruct c as [[] [] [] [] [] [] [] []]; vm_compute; congruence. Qed.

Lemma plain_char_not_brace (c : ascii) : plain_char c = true -> Ascii.eqb c "{" = false.
Proof. destruct c as [[] [] [] [] [] [] [] []]; vm_compute; congruence. Qed.

Lemma split_slash_plain (s : string) :
  forallb plain_char (list_ascii_of_string s) = true -> split_slash s = [s].
Proof.
  induction s as [|d r IH]; simpl; [reflexivity|]. intros H.
  apply andb_prop in H as [Hd Hr]. rewrite (plain_char_not_slash d Hd), (IH Hr). reflexivity.
Qed.

Lemma seg_chars_ok_plain (prev : ascii) (l : list ascii) :
  forallb plain_char l = true -> seg_chars_ok prev l = true.
Proof.
  revert prev. induction l as [|c r IH]; intros prev H; simpl in *; [reflexivity|].
  apply andb_prop in H as [Hc Hr].
  rewrite (plain_char_valid c Hc), (plain_char_not_dot c Hc), (plain_char_not_brace c Hc).
  rewrite !andb_false_r. simpl. auto.
Qed.

Lemma list_ascii_of_string_app (a b : string) :
  list_ascii_of_string (a ++ b) = (list_ascii_of_string a ++ list_ascii_of_string b)%list.
Proof. induction a as [|c a IH]; simpl; [reflexivity|]. now rewrite IH. Qed.

Lemma In_rev_string (x : ascii) (s : string) :
  In x (list_ascii_of_string (rev_string s)) <-> In x (list_ascii_of_string s).
Proof.
  unfold rev_string. rewrite list_ascii_of_string_of_list_ascii. split; [apply in_rev|].
  intros H. now apply in_rev in H.
Qed.

Lemma plain_no_dot (s : string) :
  forallb plain_char (list_ascii_of_string s) = true -> ~ In "."%char (list_ascii_of_string s).
Proof.
  intros H Hin. rewrite forallb_forall in H. specialize (H _ Hin). discriminate.
Qed.

Lemma ends_with_char_In (c : ascii) (s : string) :
  ends_with_char c s = true -> In c (list_ascii_of_string s).
Proof.
  induction s as [|d r IH]; simpl; [discriminate|].
  destruct r as [|e r']; [intros H; apply Ascii.eqb_eq in H; auto|].
  intros H. right. apply IH. exact H.
Qed.

(** X: every non-empty category name made only of ASCII letters, digits,
    ['-'] and ['_'] passes [validate_category]. *)
Theorem validate_accepts_plain_names (name : string) :
  name <> EmptyString -> forallb plain_char (list_ascii_of_string name) = true ->
  Commands.validate_category name = Ok tt.
Proof.
  intros Hne Hp. unfold Commands.validate_category. cbv zeta.
  rewrite has_nul_memo, (plain_no_nul name Hp).
  rewrite memo_name_segments, (split_slash_plain name Hp).
  assert (Hseg : segment_valid name = true).
  { destruct name as [|c r]; [congruence|]. unfold segment_valid.
    simpl in Hp. apply andb_prop in Hp as [Hc Hr].
    rewrite (plain_char_not_dot c Hc).
    change (list_ascii_of_string (String c r)) with (c :: list_ascii_of_string r).
    rewrite (seg_chars_ok_plain "000" (c :: list_ascii_of_string r)) by (simpl; now rewrite Hc, Hr).
    simpl. unfold ends_with_lock.
    destruct (strip_prefix (rev_string ".lock") (rev_string (String c r))) as [t|] eqn:E;
      [|reflexivity].
    apply strip_prefix_some in E.
    exfalso. apply (plain_no_dot (String c r)); [simpl; now rewrite Hc, Hr|].
    apply In_rev_string. rewrite E, list_ascii_of_string_app. simpl. tauto. }
  assert (Hend : ends_with_char "." name = false).
  { destruct (ends_with_char "." name) eqn:E; [|reflexivity].
    exfalso. apply (plain_no_dot name Hp). now apply ends_with_char_In. }
  unfold refname_segments_ok. simpl. rewrite Hseg, Hend. reflexivity.
Qed.

(** The name ["todo-2024_Q1"]. *)
Lemma validate_accepts_plain_names_witness :
  Commands.validate_category "todo-2024_Q1" = Ok tt.
Proof. apply validate_accepts_plain_names; [discriminate|reflexivity]. Defined.

(** * Messages *)

Lemma string_of_list_ascii_app (a b : list ascii) :
  string_of_list_ascii (a ++ b) = string_of_list_ascii a ++ string_of_list_ascii b.
Proof. induction a as [|c a IH]; simpl; [reflexivity|]. now rewrite IH. Qed.

Lemma ends_with_char_snoc (c x : ascii) (l : list ascii) :
  ends_with_char c (string_of_list_ascii (l ++ [x])) = Ascii.eqb c x.
Proof.
  induction l as [|y l IH]; simpl; [reflexivity|].
  destruct (string_of_list_ascii (l ++ [x])) eqn:E.
  - destruct l; discriminate.
  - exact IH.
Qed.

(** X: the message read from standard input ([add] with message ["-"],
    library and binary) is the input with its trailing newlines removed:
    the input is that message followed by some newlines only, and the
    message does not end with a newline. *)
Theorem stdin_message_strips_trailing_newlines (stdin : string) :
  add_message "-" stdin = strip_trailing_newlines stdin /\
  exists k, stdin = strip_trailing_newlines stdin
                    ++ string_of_list_ascii (repeat "010"%char k) /\
            ends_with_char "010" (strip_trailing_newlines stdin) = false.
Proof.
  split; [reflexivity|].
  unfold strip_trailing_newlines.
  set (drop := fix drop (l : list ascii) : list ascii :=
         match l with
         | c :: r => if Ascii.eqb c "010"%char then drop r else l
         | [] => []
         end).
  assert (D : forall l, exists k, l = (repeat "010"%char k ++ drop l)%list /\
                          forall r, drop l <> "010"%char :: r).
  { induction l as [|c r [k [Hk Hd]]].
    - exists 0. split; [reflexivity|]. simpl. discriminate.
    - simpl. destruct (Ascii.eqb c "010") eqn:E.
      + apply Ascii.eqb_eq in E. subst. exists (S k). simpl. rewrite <- Hk. auto.
      + exists 0. simpl. split; [reflexivity|]. intros r' H. inversion H; subst.
        rewrite Ascii.eqb_refl in E. discriminate. }
  destruct (D (rev (list_ascii_of_string stdin))) as [k [Hk Hd]].
  exists k. split.
  - rewrite <- string_of_list_ascii_app.
    rewrite <- (rev_repeat k), <- rev_app_distr, <- Hk, rev_involutive.
    symmetry. apply string_of_list_ascii_of_string.
  - destruct (drop (rev (list_ascii_of_string stdin))) as [|x t] eqn:Ex; [reflexivity|].
    simpl. rewrite ends_with_char_snoc.
    destruct (Ascii.eqb "010" x) eqn:E; [|reflexivity].
    apply Ascii.eqb_eq in E. subst. exfalso. exact (Hd t eq_refl).
Qed.

Lemma skip_newlines_no_nl (l : list ascii) :
  ~ In "010"%char l -> skip_newlines l = l.
Proof.
  destruct l as [|c r]; simpl; [reflexivity|]. intros H.
  destruct (Ascii.eqb c "010") eqn:E; [|reflexivity].
  apply Ascii.eqb_eq in E. subst. tauto.
Qed.

Lemma summary_chars_space (c : ascii) (r : list ascii) (sp : option (list ascii * bool)) :
  Ascii.eqb c "010" = false -> is_space c = true ->
  summary_chars (c :: r) sp
  = summary_chars r (Some match sp with
                          | None => ([c], false)
                          | Some (w, n) => ((w ++ [c])%list, n)
                          end).
Proof.
  intros Hc Hs. simpl. rewrite Hc, Hs. simpl.
  destruct sp as [[w n]|]; [now rewrite orb_false_r|reflexivity].
Qed.

Lemma summary_chars_other (c : ascii) (r : list ascii) (sp : option (list ascii * bool)) :
  Ascii.eqb c "010" = false -> is_space c = false ->
  summary_chars (c :: r) sp
  = ((match sp with None => [] | Some (w, n) => if n then [" "%char] else w end)
     ++ c :: summary_chars r None)%list.
Proof. intros Hc Hs. simpl. rewrite Hc, Hs. reflexivity. Qed.

Lemma summary_chars_single_line (l : list ascii) :
  ~ In "010"%char l ->
  (forall l' c, l = (l' ++ [c])%list -> is_space c = false) ->
  summary_chars l None = l /\
  (forall w, summary_chars l (Some (w, false)) = match l with [] => [] | _ => (w ++ l)%list end).
Proof.
  induction l as [|c r IH]; intros Hnl Hlast; [split; reflexivity|].
  assert (Hc : Ascii.eqb c "010" = false).
  { destruct (Ascii.eqb c "010") eqn:E; [|reflexivity].
    apply Ascii.eqb_eq in E. subst. simpl in Hnl. tauto. }
  assert (Hr : ~ In "010"%char r) by (simpl in Hnl; tauto).
  assert (Hlr : forall l' c', r = (l' ++ [c'])%list -> is_space c' = false).
  { intros l' c' ->. apply (Hlast (c :: l') c'). reflexivity. }
  destruct (IH Hr Hlr) as [IH1 IH2].
  destruct (is_space c) eqn:Hs.
  - destruct r as [|d r'].
    + rewrite (Hlast [] c eq_refl) in Hs. discriminate.
    + split.
      * rewrite summary_chars_space by assumption. rewrite IH2. reflexivity.
      * intros w. rewrite summary_chars_space by assumption. rewrite IH2.
        rewrite <- app_assoc. reflexivity.
  - split.
    + rewrite summary_chars_other by assumption. rewrite IH1. reflexivity.
    + intros w. rewrite summary_chars_other by assumption. rewrite IH1. reflexivity.
Qed.



(** * Editing, signatures and the [git] executable *)



(** Listing a chain that ends at the category's pointer shows its records,
    oldest first. *)
Lemma list_memos_linked (s : repo) (category : string) (ys : list oid) (ps : list string)
    (h : oid) (json_output : bool) :
  Commands.validate_category category = Ok tt ->
  linked s None ys ps ->
  last_opt None ys = Some h ->
  assoc_find ("refs/memo/" ++ category) (refs s) = Some h ->
  length ys <= S (length (odb s)) ->
  let entries := map (fun op => (fst op, message_summary (snd op))) (combine ys ps) in
  Commands.list_memos s category json_output =
    {| res := Ok tt; st := s;
       out := if json_output then [JsonMemos entries]
              else map (fun e => Line (fst e ++ " " ++ snd e)) entries |}.
Proof.
  intros Hv Hl Hlast Hh Hlen entries.
  assert (Hid : refname_to_id s ("refs/memo/" ++ category) = Ok h).
  { unfold refname_to_id.
    now rewrite (proj1 (validate_category_ok _ Hv)), (valid_category_name _ Hv), Hh. }
  unfold Commands.list_memos. rewrite Hv, Hid. unfold revwalk_reverse. rewrite Hid.
  rewrite (walk_linked s ys ps h _ Hl Hlast Hlen), rev_involutive.
  unfold Commands.print_memos. rewrite (memo_entries_linked _ _ _ _ Hl).
  destruct json_output; reflexivity.
Qed.









Lemma strip_prefix_app_common (p a b : string) :
  strip_prefix (p ++ a) (p ++ b) = strip_prefix a b.
Proof. induction p as [|c p IH]; simpl; [reflexivity|]. now rewrite Ascii.eqb_refl. Qed.


